(** * N-Queens by incremental SAT enumeration: the encoder and the
      enumeration loop of [ex2-5.py], embedded and verified.

    Python integers are [Z]; a literal is a signed non-zero integer, a
    clause a list of literals, a formula a list of clauses, in the order
    in which the program appends them. *)

From Stdlib Require Import ZArith Lia Ascii.
From stdpp Require Import gmap strings list fin_maps pretty.

Open Scope Z_scope.

(** Python's [range(n)] and [range(a, b)]: empty when the bound is not
    above the start. *)
Definition range (n : Z) : list Z := seqZ 0 n.
Definition range_from (a b : Z) : list Z := seqZ a (b - a).

(** ** The encoder (lines 27-78 of [queens]) *)

Module Encoder.

(** [def var(i, j): return i * N + j + 1] *)
Definition var (N i j : Z) : Z := i * N + j + 1.

(** The at-least-one clause of row [i]. *)
Definition row_clause (N i : Z) : list Z := (λ j, var N i j) <$> range N.

(** The at-most-one clauses of row [i], in append order. *)
Definition row_pairs (N i : Z) : list (list Z) :=
  j1 ← range N; j2 ← range_from (j1 + 1) N; [[- var N i j1; - var N i j2]].

(** Constraint 1: for each row the at-least-one clause, then its pairs. *)
Definition rows (N : Z) : list (list Z) :=
  i ← range N; row_clause N i :: row_pairs N i.

(** Constraint 2: at most one queen per column. *)
Definition columns (N : Z) : list (list Z) :=
  j ← range N; i1 ← range N; i2 ← range_from (i1 + 1) N;
  [[- var N i1 j; - var N i2 j]].

(** The pairwise loop over a list of collected variables
    ([for k1 in range(len(vs)): for k2 in range(k1 + 1, len(vs))]). *)
Definition pairwise (vs : list Z) : list (list Z) :=
  k1 ← range (Z.of_nat (length vs));
  k2 ← range_from (k1 + 1) (Z.of_nat (length vs));
  [[- (vs !!! Z.to_nat k1); - (vs !!! Z.to_nat k2)]].

(** [diagonal_vars] for the main diagonal [i - j = d]. *)
Definition diagonal_vars (N d : Z) : list Z :=
  i ← range N;
  let j := i - d in
  if bool_decide (0 ≤ j < N) then [var N i j] else [].

(** Constraint 3: [for d in range(-(N-1), N)]. *)
Definition diagonals (N : Z) : list (list Z) :=
  d ← range_from (- (N - 1)) N; pairwise (diagonal_vars N d).

(** [anti_diagonal_vars] for the anti-diagonal [i + j = d]. *)
Definition anti_diagonal_vars (N d : Z) : list Z :=
  i ← range N;
  let j := d - i in
  if bool_decide (0 ≤ j < N) then [var N i j] else [].

(** Constraint 4: [for d in range(2 * N - 1)]. *)
Definition anti_diagonals (N : Z) : list (list Z) :=
  d ← range (2 * N - 1); pairwise (anti_diagonal_vars N d).

(** [cnf.clauses] when the four loops are done. *)
Definition cnf (N : Z) : list (list Z) :=
  rows N ++ columns N ++ diagonals N ++ anti_diagonals N.

End Encoder.

(** ** Assignments and a reference model enumerator *)

Module Models.

(** Truth of a clause and of a formula under a model given, as the
    solvers return it, as a list of signed literals. *)
Definition lit_in (l : Z) (m : list Z) : bool := existsb (Z.eqb l) m.
Definition sat_clause (m : list Z) (c : list Z) : bool :=
  existsb (λ l, lit_in l m) c.
Definition sat (m : list Z) (cls : list (list Z)) : bool :=
  forallb (sat_clause m) cls.

(** A complete assignment of the [n] variables [v, v+1, ...]: one
    literal per variable, in order, the sign giving the value. *)
Fixpoint complete (n : nat) (v : Z) (m : list Z) : bool :=
  match n, m with
  | O, [] => true
  | S n', l :: m' => (Z.eqb l v || Z.eqb l (- v)) && complete n' (v + 1) m'
  | _, _ => false
  end.

(** Setting literal [l] true: satisfied clauses go, [-l] is struck out. *)
Definition assign (l : Z) (cls : list (list Z)) : list (list Z) :=
  (λ c, filter (λ x, x ≠ - l) c) <$>
    filter (λ c, lit_in l c = false) cls.

Definition is_nil {A} (l : list A) : bool :=
  match l with [] => true | _ => false end.

(** All complete assignments of [v .. v+n-1] that satisfy [cls], by
    branching on each variable and pruning on an empty clause. *)
Fixpoint enum (n : nat) (v : Z) (cls : list (list Z)) : list (list Z) :=
  if existsb is_nil cls then [] else
  match n with
  | O => if is_nil cls then [[]] else []
  | S n' =>
      (cons v <$> enum n' (v + 1) (assign v cls)) ++
      (cons (- v) <$> enum n' (v + 1) (assign (- v) cls))
  end.

(** The number of variables a solver knows: the largest one mentioned. *)
Definition nof_vars (cls : list (list Z)) : Z :=
  foldr Z.max 0 (Z.abs <$> concat cls).

Definition all_models (cls : list (list Z)) : list (list Z) :=
  enum (Z.to_nat (nof_vars cls)) 1 cls.

(** What a solver owes its caller when it answers "satisfiable": a
    complete assignment of the variables it knows that makes every
    clause true. *)
Definition is_model (cls : list (list Z)) (m : list Z) : Prop :=
  complete (Z.to_nat (nof_vars cls)) 1 m = true ∧ sat m cls = true.

End Models.

(** ** The solver sessions of PySAT, as [queens] uses them *)

(** The exceptions that can leave [queens]. *)
Inductive exn :=
  | KeyError (key : string)
  | TypeError
  | SolverError (code : Z).

(** The three classes imported from [pysat.solvers]. *)
Inductive solver_class := Glucose3 | Minisat22 | Cadical103.

Global Instance solver_class_eq_dec : EqDecision solver_class.
Proof. solve_decision. Defined.

(** A solver class, seen from its caller: a constructor and the four
    methods [queens] calls.  A call returns or raises; [solve] returns
    [True], [False] or [None], [get_model] a list of literals or [None]. *)
Record backend := Backend {
  session : Type;
  new_session : session;
  add_clause : session → list Z → exn + session;
  solve : session → exn + (session * option bool);
  get_model : session → exn + (session * option (list Z));
  delete : session → option exn;
}.

(** What the caller can observe of a run: the calls made on the solver
    library, in order, each with what it gave back. *)
Inductive event :=
  | Construct (cls : solver_class)
  | AddClause (c : list Z) (raised : option exn)
  | Solve (answer : exn + option bool)
  | GetModel (answer : exn + option (list Z))
  | Delete (raised : option exn).

(** How a call of [queens] ends. *)
Inductive outcome :=
  | Return (solution_count : Z)
  | Raised (e : exn).

(** ** The enumerator (lines 80-116 of [queens]) *)

Module Enumerator.

(** [str.lower], on strings as sequences of bytes: the letters A-Z go
    to a-z, every other byte stays.  The three recognised names are
    ASCII, and no character outside ASCII is lowered to one of their
    letters, so a name is recognised here exactly when Python
    recognises it. *)
Definition lower_ascii (c : ascii) : ascii :=
  let n := N_of_ascii c in
  if ((65 <=? n) && (n <=? 90))%N then ascii_of_N (n + 32) else c.

Fixpoint lower (s : string) : string :=
  match s with
  | EmptyString => EmptyString
  | String c s' => String (lower_ascii c) (lower s')
  end.

(** The dictionary [solver_map]. *)
Definition solver_map : gmap string solver_class :=
  <["glucose3" := Glucose3]> (<["minisat" := Minisat22]>
    (<["cadical" := Cadical103]> ∅)).

(** Lines 87-88: an unknown name is replaced by the default. *)
Definition effective_name (solver_name : string) : string :=
  match solver_map !! lower solver_name with
  | None => "glucose3"%string
  | Some _ => solver_name
  end.

(** Line 90, the lookup [solver_map[solver_name.lower()]]: [None] is
    Python's [KeyError]. *)
Definition lookup_class (solver_name : string) : option solver_class :=
  solver_map !! lower (effective_name solver_name).

(** Python's truth value of what [solve] returned, as [while] tests it. *)
Definition truthy (answer : option bool) : bool :=
  match answer with Some true => true | _ => false end.

(** Lines 105-110: both branches of the [if] append [-lit]. *)
Definition blocking_clause (model : list Z) : list Z :=
  foldl (λ blocking lit,
           if bool_decide (lit > 0) then blocking ++ [- lit]
           else blocking ++ [- lit]) [] model.

Definition prepend (tr : list event) (r : option (list event * outcome)) :
    option (list event * outcome) :=
  match r with
  | Some (tr', o) => Some (tr ++ tr', o)
  | None => None
  end.

Section WithBackend.
Context (B : backend).

(** Lines 93-94: hand every clause of the formula to the solver. *)
Fixpoint load (st : session B) (cls : list (list Z)) :
    list event * (exn + session B) :=
  match cls with
  | [] => ([], inr st)
  | c :: cls' =>
      match add_clause B st c with
      | inl e => ([AddClause c (Some e)], inl e)
      | inr st' =>
          let '(tr, r) := load st' cls' in (AddClause c None :: tr, r)
      end
  end.

(** Lines 99-116: the [while] loop, then [delete] and [return].  The
    loop is bounded by [fuel]; [None] means the bound was reached. *)
Fixpoint enumerate (fuel : nat) (st : session B) (solution_count : Z) :
    option (list event * outcome) :=
  match fuel with
  | O => None
  | S fuel' =>
      match solve B st with
      | inl e => Some ([Solve (inl e)], Raised e)
      | inr (st1, answer) =>
          if truthy answer then
            match get_model B st1 with
            | inl e =>
                Some ([Solve (inr answer); GetModel (inl e)], Raised e)
            | inr (st2, None) =>
                Some ([Solve (inr answer); GetModel (inr None)],
                      Raised TypeError)
            | inr (st2, Some model) =>
                let blocking := blocking_clause model in
                match add_clause B st2 blocking with
                | inl e =>
                    Some ([Solve (inr answer); GetModel (inr (Some model));
                           AddClause blocking (Some e)], Raised e)
                | inr st3 =>
                    prepend [Solve (inr answer); GetModel (inr (Some model));
                             AddClause blocking None]
                      (enumerate fuel' st3 (solution_count + 1))
                end
            end
          else
            match delete B st1 with
            | Some e => Some ([Solve (inr answer); Delete (Some e)], Raised e)
            | None =>
                Some ([Solve (inr answer); Delete None],
                      Return solution_count)
            end
      end
  end.
End WithBackend.

(** [queens(N, solver_name)], given the solver library [pysat]. *)
Definition queens (pysat : solver_class → backend) (fuel : nat)
    (N : Z) (solver_name : string) : option (list event * outcome) :=
  if bool_decide (N ≤ 3) then Some ([], Return 0)
  else
    let cnf := Encoder.cnf N in
    match lookup_class solver_name with
    | None => Some ([], Raised (KeyError (lower (effective_name solver_name))))
    | Some cls =>
        let B := pysat cls in
        match load B (new_session B) cnf with
        | (tr, inl e) => Some (Construct cls :: tr, Raised e)
        | (tr, inr st) => prepend (Construct cls :: tr) (enumerate B fuel st 0)
        end
    end.

(** The models the loop accepted, in order: those [get_model] handed
    over. *)
Fixpoint accepted (tr : list event) : list (list Z) :=
  match tr with
  | [] => []
  | GetModel (inr (Some m)) :: tr' => m :: accepted tr'
  | _ :: tr' => accepted tr'
  end.

(** How many sessions were constructed, queried, released. *)
Definition is_construct (e : event) : bool :=
  match e with Construct _ => true | _ => false end.
Definition is_solve (e : event) : bool :=
  match e with Solve _ => true | _ => false end.
Definition is_delete (e : event) : bool :=
  match e with Delete _ => true | _ => false end.
Definition count_events (p : event → bool) (tr : list event) : nat :=
  length (List.filter p tr).

End Enumerator.

(** A solver written here, for reference: it keeps the clauses and
    answers from the exhaustive enumeration. *)
Module Reference.

Definition pick := list (list Z) → option (list Z).

Definition ref_backend (choose : pick) : backend := {|
  session := list (list Z);
  new_session := [];
  add_clause := λ st c, inr (st ++ [c]);
  solve := λ st, inr (st, Some (negb (Models.is_nil (Models.all_models st))));
  get_model := λ st, inr (st, choose (Models.all_models st));
  delete := λ _, None;
|}.

Definition first_model : pick := head.
Definition last_model : pick := last.

Definition picks (choose : pick) : Prop :=
  ∀ l, l ≠ [] → ∃ m, choose l = Some m ∧ m ∈ l.

(** A library whose three classes answer differently: two hand over
    the first model found, the third the last. *)
Definition ref_pysat (cls : solver_class) : backend :=
  match cls with
  | Glucose3 | Minisat22 => ref_backend first_model
  | Cadical103 => ref_backend last_model
  end.

Definition ref_clauses (cls : solver_class) :
    session (ref_pysat cls) → list (list Z) :=
  match cls with
  | Glucose3 | Minisat22 | Cadical103 => id
  end.

End Reference.

(** ** What [queens] relies on from a solver *)

Module Contract.
Import Models Enumerator.

(** A backend is sound for [clauses], which tells the clauses a session
    holds, when adding a clause adds it, solving keeps them, and a model
    handed over after a truthy answer is a model of all of them. *)
Record sound (B : backend) (clauses : session B → list (list Z)) : Prop := {
  sound_new : clauses (new_session B) = [];
  sound_add : ∀ st c st',
    add_clause B st c = inr st' → clauses st' = clauses st ++ [c];
  sound_model : ∀ st st1 st2 a m,
    solve B st = inr (st1, a) → truthy a = true →
    get_model B st1 = inr (st2, Some m) →
    clauses st2 = clauses st ∧ is_model (clauses st) m;
}.

(** It decides when no call raises and [solve] answers [True] with a
    model at hand on a satisfiable formula, [False] on the others. *)
Record decides (B : backend) (clauses : session B → list (list Z)) : Prop := {
  decides_add : ∀ st c, ∃ st', add_clause B st c = inr st';
  decides_sat : ∀ st, (∃ m, is_model (clauses st) m) →
    ∃ st1 st2 m, solve B st = inr (st1, Some true) ∧
                 get_model B st1 = inr (st2, Some m);
  decides_unsat : ∀ st, ¬ (∃ m, is_model (clauses st) m) →
    ∃ st1, solve B st = inr (st1, Some false);
  decides_delete : ∀ st, delete B st = None;
}.

Definition correct (B : backend) : Prop :=
  ∃ clauses, sound B clauses ∧ decides B clauses.

End Contract.

(** ** Runs, as the caller observes them *)

Module Shapes.
Import Enumerator.

(** Every run of the loop that starts with [count] solutions counted is
    one of these; the last rule is one turn of the [while]. *)
Inductive run_shape : Z → list event → outcome → Prop :=
  | shape_solve_raises count e :
      run_shape count [Solve (inl e)] (Raised e)
  | shape_done count answer :
      truthy answer = false →
      run_shape count [Solve (inr answer); Delete None] (Return count)
  | shape_delete_raises count answer e :
      truthy answer = false →
      run_shape count [Solve (inr answer); Delete (Some e)] (Raised e)
  | shape_model_raises count e :
      run_shape count [Solve (inr (Some true)); GetModel (inl e)] (Raised e)
  | shape_model_none count :
      run_shape count [Solve (inr (Some true)); GetModel (inr None)]
        (Raised TypeError)
  | shape_add_raises count m e :
      run_shape count
        [Solve (inr (Some true)); GetModel (inr (Some m));
         AddClause (blocking_clause m) (Some e)] (Raised e)
  | shape_turn count m tr r :
      run_shape (count + 1) tr r →
      run_shape count
        (Solve (inr (Some true)) :: GetModel (inr (Some m)) ::
         AddClause (blocking_clause m) None :: tr) r.

(** A run of [load] only adds clauses; it ends at the first refusal. *)
Inductive load_shape : list event → option exn → Prop :=
  | load_done : load_shape [] None
  | load_raises c e : load_shape [AddClause c (Some e)] (Some e)
  | load_next c tr r : load_shape tr r → load_shape (AddClause c None :: tr) r.

(** What a whole call of [queens] looks like for [N > 3]. *)
Inductive queens_shape : list event → outcome → Prop :=
  | queens_load_raises cls tr e :
      load_shape tr (Some e) → queens_shape (Construct cls :: tr) (Raised e)
  | queens_loop cls tr0 tr r :
      load_shape tr0 None → run_shape 0 tr r →
      queens_shape (Construct cls :: tr0 ++ tr) r.

(** The run stopped on a call of [solve], [get_model] or [add_clause]
    that raised, or on a [get_model] that gave [None]. *)
Definition ends_in_fault (tr : list event) : bool :=
  match last tr with
  | Some (Solve (inl _)) | Some (GetModel (inl _))
  | Some (GetModel (inr None)) | Some (AddClause _ (Some _)) => true
  | _ => false
  end.

(** Each model handed over is followed by one added clause, the
    negation of that model, and no second one. *)
Fixpoint blocks_follow (tr : list event) : Prop :=
  match tr with
  | [] => True
  | GetModel (inr (Some m)) :: rest =>
      match rest with
      | AddClause c _ :: rest' =>
          c = Z.opp <$> m ∧
          match rest' with AddClause _ _ :: _ => False | _ => True end
      | _ => False
      end ∧ blocks_follow rest
  | _ :: rest => blocks_follow rest
  end.

(** The trace up to the loop when no [add_clause] refuses: the
    construction, then one call per clause of the formula. *)
Definition loaded (cls : solver_class) (N : Z) : list event :=
  Construct cls :: ((λ c, AddClause c None) <$> Encoder.cnf N).

End Shapes.

(** ** Decoding a model ([print_solution], lines 119-140) *)

Module Printer.

(** The inner [def var(i, j)] of [print_solution]. *)
Definition var (N i j : Z) : Z := i * N + j + 1.

(** The board after the two loops: ['Q'] where [var(i, j) in model],
    ['.'] elsewhere. *)
Definition board (N : Z) (model : list Z) : list (list ascii) :=
  (λ i, (λ j, if bool_decide (var N i j ∈ model)
              then "Q"%char else "."%char) <$> range N) <$> range N.

End Printer.

(** ** Backends that fail *)

Module Faulty.

(** A session whose [solve] always gives the same answer, whatever the
    clauses. *)
Definition stubborn (answer : exn + option bool) : backend := {|
  session := unit;
  new_session := ();
  add_clause := λ st _, inr st;
  solve := λ st, match answer with
                 | inl e => inl e
                 | inr a => inr (st, a)
                 end;
  get_model := λ st, inr (st, None);
  delete := λ _, None;
|}.

(** [solve] raises. *)
Definition raising : backend := stubborn (inl (SolverError 1)).

(** [solve] returns [None]: neither satisfiable nor unsatisfiable. *)
Definition undecided : backend := stubborn (inr None).

End Faulty.

(** ** The clauses the specification lists *)

Module EncodingSpec.
Import Encoder.

(** [a] stands before [b] in [l]. *)
Fixpoint before {A} (a b : A) (l : list A) : Prop :=
  match l with
  | [] => False
  | x :: l' => (a = x ∧ b ∈ l') ∨ before a b l'
  end.

(** The clauses of the encoding, family by family, in the words of the
    specification: the at-least-one clause of a row; the exclusion of a
    pair of columns in a row; of a pair of rows in a column; of a pair of
    cells on a main diagonal [row - col = d]; of a pair of cells on an
    anti-diagonal [row + col = d].  A pair is written with its upper
    cell (or, in a row, its left cell) first. *)
Inductive spec_clause (N : Z) : list Z → Prop :=
  | row_at_least_one i :
      0 ≤ i < N → spec_clause N ((λ j, var N i j) <$> seqZ 0 N)
  | row_at_most_one i j1 j2 :
      0 ≤ i < N → 0 ≤ j1 < j2 → j2 < N →
      spec_clause N [- var N i j1; - var N i j2]
  | column_at_most_one j i1 i2 :
      0 ≤ j < N → 0 ≤ i1 < i2 → i2 < N →
      spec_clause N [- var N i1 j; - var N i2 j]
  | main_diagonal d i1 j1 i2 j2 :
      - (N - 1) ≤ d ≤ N - 1 →
      0 ≤ i1 < N → 0 ≤ j1 < N → 0 ≤ i2 < N → 0 ≤ j2 < N →
      i1 - j1 = d → i2 - j2 = d → i1 < i2 →
      spec_clause N [- var N i1 j1; - var N i2 j2]
  | anti_diagonal d i1 j1 i2 j2 :
      0 ≤ d ≤ 2 * N - 2 →
      0 ≤ i1 < N → 0 ≤ j1 < N → 0 ≤ i2 < N → 0 ≤ j2 < N →
      i1 + j1 = d → i2 + j2 = d → i1 < i2 →
      spec_clause N [- var N i1 j1; - var N i2 j2].

(** The two nested loops over pairs of indices, and the loop that
    collects the variables of a diagonal, as functions of what varies. *)
Definition pair_loop (g : Z → Z → list Z) (n : Z) : list (list Z) :=
  k1 ← range n; k2 ← range_from (k1 + 1) n; [g k1 k2].

Definition select (P : Z → Prop) `{∀ i, Decision (P i)} (f : Z → Z)
    (l : list Z) : list Z :=
  i ← l; if bool_decide (P i) then [f i] else [].

Definition on_board (N i j : Z) : Prop := 0 ≤ i < N ∧ 0 ≤ j < N.

(** The exclusion of two cells. *)
Definition excl (N i1 j1 i2 j2 : Z) : list Z :=
  [- var N i1 j1; - var N i2 j2].

(** The clauses that exclude two cells of the board standing in relation
    [R]. *)
Definition excl_family (N : Z) (R : Z → Z → Z → Z → Prop) (c : list Z) : Prop :=
  ∃ i1 j1 i2 j2,
    on_board N i1 j1 ∧ on_board N i2 j2 ∧ R i1 j1 i2 j2 ∧
    c = excl N i1 j1 i2 j2.

Definition same_row (i1 j1 i2 j2 : Z) : Prop := i1 = i2 ∧ j1 < j2.
Definition same_column (i1 j1 i2 j2 : Z) : Prop := j1 = j2 ∧ i1 < i2.
Definition same_diagonal (i1 j1 i2 j2 : Z) : Prop :=
  i1 - j1 = i2 - j2 ∧ i1 < i2.
Definition same_anti_diagonal (i1 j1 i2 j2 : Z) : Prop :=
  i1 + j1 = i2 + j2 ∧ i1 < i2.

End EncodingSpec.

(** ** The board a model stands for *)

Module Placement.
Import Encoder.

(** A queen stands on cell [(i, j)] under [model]: the test
    [var(i, j) in model] of [print_solution]. *)
Definition queen (N : Z) (model : list Z) (i j : Z) : Prop :=
  var N i j ∈ model.

(** Two cells of one row, column, diagonal or anti-diagonal. *)
Definition attacks (i1 j1 i2 j2 : Z) : Prop :=
  (i1 ≠ i2 ∨ j1 ≠ j2) ∧
  (i1 = i2 ∨ j1 = j2 ∨ i1 - j1 = i2 - j2 ∨ i1 + j1 = i2 + j2).

(** What the comments of the four constraints ask of a board: a queen
    in every row, and no two queens on a common line. *)
Definition placement (N : Z) (model : list Z) : Prop :=
  (∀ i, 0 ≤ i < N → ∃ j, 0 ≤ j < N ∧ queen N model i j) ∧
  (∀ i1 j1 i2 j2,
     0 ≤ i1 < N → 0 ≤ j1 < N → 0 ≤ i2 < N → 0 ≤ j2 < N →
     queen N model i1 j1 → queen N model i2 j2 →
     ¬ attacks i1 j1 i2 j2).

End Placement.

(** ** Printing a solution ([print_solution], lines 130-140) *)

Module Report.

(** [' '.join(row)] on a row of one-character strings. *)
Definition join_row (row : list ascii) : string :=
  String.concat " " ((λ c, String c EmptyString) <$> row).

(** The lines [print_solution] prints: the heading, the rows of the
    board, an empty line. *)
Definition print_solution (N : Z) (model : list Z) : list string :=
  ("Solution for " +:+ pretty N +:+ "x" +:+ pretty N +:+ " board:") ::
  (join_row <$> Printer.board N model) ++ [""%string].

End Report.

(** ** The command line ([main], lines 143-180) *)

Module Cli.
Import Enumerator.

(** How the process ends: [sys.exit(status)], the end of [main], or an
    exception of [queens] that [except ValueError] does not catch. *)
Inductive ending :=
  | Exit (status : Z)
  | Finished
  | Uncaught (e : exn).

(** A run of [main]: the lines printed, the calls made on the solver
    library, the ending. *)
Record run := Run {
  printed : list string;
  calls : list event;
  ended : ending;
}.

(** [str.upper], on the ASCII letters as [lower] is. *)
Definition upper_ascii (c : ascii) : ascii :=
  let n := N_of_ascii c in
  if ((97 <=? n) && (n <=? 122))%N then ascii_of_N (n - 32) else c.

Fixpoint upper (s : string) : string :=
  match s with
  | EmptyString => EmptyString
  | String c s' => String (upper_ascii c) (upper s')
  end.

(** Lines 146-148. *)
Definition usage : list string :=
  ["Usage: python queens.py N [solver]";
   "Where N > 3 is the size of the chessboard";
   "Optional solver: glucose3 (default), minisat, or cadical"]%string.

(** Lines 158-163: the solver named on the command line, in lower
    case; an unknown one is reported and replaced. *)
Definition choose_solver (argv : list string) : list string * string :=
  match argv !! 2%nat with
  | None => ([], "glucose3"%string)
  | Some arg =>
      let solver_name := lower arg in
      if bool_decide (solver_name ∈ ["glucose3"; "minisat"; "cadical"]%string)
      then ([], solver_name)
      else (["Unknown solver '" +:+ solver_name +:+ "'. Using glucose3."],
            "glucose3"%string)
  end.

(** Line 170. *)
Definition known_results : gmap Z Z :=
  <[4 := 2]> (<[5 := 10]> (<[6 := 4]> (<[7 := 40]> (<[8 := 92]> ∅)))).

(** Lines 171-176: the comparison with the known value, when there is
    one. *)
Definition check_known (N result : Z) : list string :=
  match known_results !! N with
  | None => []
  | Some expected =>
      if bool_decide (result = expected)
      then ["✓ Result matches known value: " +:+ pretty expected]
      else ["✗ Result " +:+ pretty result +:+
            " doesn't match known value: " +:+ pretty expected]
  end.

(** [main], given the solver library, Python's [int] on strings
    ([None] for [ValueError]) and the bound on the loop of [queens].
    [argv] is [sys.argv].  [sys.exit] is not a [ValueError], and neither
    is any exception of [exn], so the [except] clause is reached from
    [int] alone. *)
Definition main (pysat : solver_class → backend) (int : string → option Z)
    (fuel : nat) (argv : list string) : option run :=
  match argv !! 1%nat with
  | None => Some (Run usage [] (Exit 1))
  | Some arg =>
      match int arg with
      | None => Some (Run ["Please provide a valid integer for N"] [] (Exit 1))
      | Some N =>
          if bool_decide (N ≤ 3)
          then Some (Run ["N must be greater than 3. Got N = " +:+ pretty N]
                         [] (Exit 1))
          else
            let '(warning, solver_name) := choose_solver argv in
            let banner :=
              "Solving " +:+ pretty N +:+
              "-Queens problem using incremental " +:+ upper solver_name +:+
              " SAT solver..." in
            match queens pysat fuel N solver_name with
            | None => None
            | Some (tr, Raised e) =>
                Some (Run (warning ++ [banner]) tr (Uncaught e))
            | Some (tr, Return result) =>
                Some (Run (warning ++
                           [banner;
                            "Number of solutions for " +:+ pretty N +:+
                            "-Queens: " +:+ pretty result] ++
                           check_known N result) tr Finished)
            end
      end
  end.

End Cli.

(** ** Auxiliary notions of the proofs *)

Module Calls.

(** A call that raised, and what it raised. *)
Definition raised_by (ev : event) : option exn :=
  match ev with
  | AddClause _ (Some e) | Solve (inl e) | GetModel (inl e)
  | Delete (Some e) => Some e
  | _ => None
  end.

End Calls.

Module Counting.

(** [T u = u (u-1) (u-2)], whose steps are [3 u (u-1)]. *)
Definition falling3 (u : Z) : Z := u * (u - 1) * (u - 2).

End Counting.

Module Samples.

(** One of the two solutions for N = 4. *)
Definition solution4 : list Z :=
  [-1; 2; -3; -4; -5; -6; -7; 8; 9; -10; -11; -12; -13; -14; 15; -16].

End Samples.

(** * Proofs *)

Import Encoder Models Enumerator Contract Shapes EncodingSpec.

(** Membership in a list written out: one case per element. *)
Ltac split_elem H :=
  repeat (apply elem_of_cons in H as [H|H]; [simplify_eq |]);
  try (by apply elem_of_nil in H).

(** ** Truth under a model *)

Lemma lit_in_spec l m : lit_in l m = true ↔ l ∈ m.
Proof.
  unfold lit_in. rewrite existsb_exists. split.
  - intros (x & Hx & Heq). apply Z.eqb_eq in Heq. subst x.
    by apply list_elem_of_In.
  - intros Hl. exists l. split; [by apply list_elem_of_In | apply Z.eqb_refl].
Qed.

Lemma lit_in_false l m : lit_in l m = false ↔ l ∉ m.
Proof.
  rewrite <- lit_in_spec. destruct (lit_in l m); split; congruence.
Qed.

Lemma sat_clause_spec m c : sat_clause m c = true ↔ ∃ l, l ∈ c ∧ l ∈ m.
Proof.
  unfold sat_clause. rewrite existsb_exists. split.
  - intros (l & Hl & Hm). exists l. split; [by apply list_elem_of_In |].
    by apply lit_in_spec.
  - intros (l & Hl & Hm). exists l. split; [by apply list_elem_of_In |].
    by apply lit_in_spec.
Qed.

Lemma sat_spec m cls : sat m cls = true ↔ ∀ c, c ∈ cls → sat_clause m c = true.
Proof.
  unfold sat. rewrite forallb_forall. split.
  - intros H c Hc. apply H. by apply list_elem_of_In.
  - intros H c Hc. apply H. by apply list_elem_of_In.
Qed.

Lemma sat_app m cls1 cls2 :
  sat m (cls1 ++ cls2) = true ↔ sat m cls1 = true ∧ sat m cls2 = true.
Proof. unfold sat. rewrite forallb_app. apply andb_true_iff. Qed.

Lemma existsb_is_nil (cls : list (list Z)) :
  existsb is_nil cls = true ↔ [] ∈ cls.
Proof.
  rewrite existsb_exists. split.
  - intros ([|] & Hx & Hn); [by apply list_elem_of_In | discriminate].
  - intros H. exists []. split; [by apply list_elem_of_In | done].
Qed.

Lemma sat_nil_clause m cls : [] ∈ cls → sat m cls = false.
Proof.
  intros H. destruct (sat m cls) eqn:E; [| done].
  rewrite sat_spec in E. specialize (E _ H). discriminate.
Qed.

(** The literals of a complete assignment name exactly its variables. *)
Lemma complete_range n v m l :
  0 < v → complete n v m = true → l ∈ m → v ≤ Z.abs l < v + Z.of_nat n.
Proof.
  revert v m. induction n as [|n IH]; intros v [|x m] Hv Hc Hl; simpl in Hc;
    try discriminate.
  - by apply elem_of_nil in Hl.
  - apply andb_true_iff in Hc as [Hx Hc].
    apply elem_of_cons in Hl as [->|Hl].
    + apply orb_true_iff in Hx as [Hx|Hx]; apply Z.eqb_eq in Hx; lia.
    + specialize (IH (v + 1) m ltac:(lia) Hc Hl). lia.
Qed.

Lemma complete_length n v m : complete n v m = true → length m = n.
Proof.
  revert v m. induction n as [|n IH]; intros v [|x m] Hc; simpl in Hc;
    try discriminate; [done |].
  apply andb_true_iff in Hc as [_ Hc]. simpl. f_equal. eauto.
Qed.

(** A complete assignment never holds a literal together with its
    negation. *)
Lemma complete_consistent n v m l :
  0 < v → complete n v m = true → l ∈ m → - l ∉ m.
Proof.
  revert v m. induction n as [|n IH]; intros v [|x m] Hv Hc Hl; simpl in Hc;
    try discriminate.
  - by apply elem_of_nil in Hl.
  - apply andb_true_iff in Hc as [Hx Hc].
    assert (Hxv : Z.abs x = v).
    { apply orb_true_iff in Hx as [Hx|Hx]; apply Z.eqb_eq in Hx; lia. }
    intros Hn. apply elem_of_cons in Hl as [->|Hl];
      apply elem_of_cons in Hn as [Hn|Hn].
    + lia.
    + pose proof (complete_range n (v + 1) m _ ltac:(lia) Hc Hn). lia.
    + pose proof (complete_range n (v + 1) m _ ltac:(lia) Hc Hl). lia.
    + eapply (IH (v + 1) m); [lia | done..].
Qed.

(** *** The enumerator is exact *)

Lemma elem_of_assign c' x cls :
  c' ∈ assign x cls ↔
  (∃ c, c ∈ cls ∧ (x ∉ c) ∧ c' = filter (λ y, y ≠ - x) c).
Proof.
  unfold assign. rewrite list_elem_of_fmap. split.
  - intros (c & -> & Hc). apply list_elem_of_filter in Hc as [Hx Hc].
    exists c. by rewrite <- lit_in_false.
  - intros (c & Hc & Hx & ->). exists c. split; [done |].
    apply list_elem_of_filter. by rewrite lit_in_false.
Qed.

Lemma sat_assign x m cls :
  (∀ l, l ∈ m → l ≠ - x) →
  sat (x :: m) cls = true ↔ sat m (assign x cls) = true.
Proof.
  intros Hm. rewrite !sat_spec. split.
  - intros H c' Hc'. apply elem_of_assign in Hc' as (c & Hc & Hx & ->).
    specialize (H c Hc). apply sat_clause_spec in H as (l & Hl & Hlm).
    apply sat_clause_spec. apply elem_of_cons in Hlm as [->|Hlm]; [done |].
    exists l. split; [| done]. apply list_elem_of_filter. auto.
  - intros H c Hc. apply sat_clause_spec.
    destruct (decide (x ∈ c)) as [Hx|Hx].
    + exists x. split; [done | apply elem_of_cons; by left].
    + assert (Hc' : filter (λ y, y ≠ - x) c ∈ assign x cls).
      { apply elem_of_assign. by exists c. }
      specialize (H _ Hc'). apply sat_clause_spec in H as (l & Hl & Hlm).
      apply list_elem_of_filter in Hl as [_ Hl].
      exists l. split; [done | apply elem_of_cons; by right].
Qed.

Lemma enum_spec n : ∀ v cls m,
  0 < v → m ∈ enum n v cls ↔ complete n v m = true ∧ sat m cls = true.
Proof.
  induction n as [|n IH]; intros v cls m Hv; simpl.
  - destruct (existsb is_nil cls) eqn:En.
    + apply existsb_is_nil in En. rewrite (sat_nil_clause _ _ En).
      split; [by intros ?%elem_of_nil | by intros [_ ?]].
    + destruct cls as [|c cls]; simpl.
      * rewrite list_elem_of_singleton.
        destruct m; split; (done || by intros [? ?]).
      * split; [by intros ?%elem_of_nil |]. intros [Hm Hs].
        apply andb_true_iff in Hs as [Hs _].
        apply sat_clause_spec in Hs as (l & _ & Hl).
        destruct m; [by apply elem_of_nil in Hl | done].
  - destruct (existsb is_nil cls) eqn:En.
    + apply existsb_is_nil in En. rewrite (sat_nil_clause _ _ En).
      split; [by intros ?%elem_of_nil | by intros [_ ?]].
    + rewrite elem_of_app, !list_elem_of_fmap. split.
      * intros [(m' & -> & Hm')|(m' & -> & Hm')];
          apply IH in Hm' as [Hc Hs]; try lia; simpl.
        -- rewrite Z.eqb_refl, Hc. split; [done |]. apply sat_assign; [| done].
           intros l Hl.
           pose proof (complete_range n (v + 1) m' l ltac:(lia) Hc Hl). lia.
        -- rewrite Z.eqb_refl, orb_true_r, Hc. split; [done |].
           apply sat_assign; [| done].
           intros l Hl.
           pose proof (complete_range n (v + 1) m' l ltac:(lia) Hc Hl). lia.
      * intros [Hc Hs]. destruct m as [|x m]; [done |].
        apply andb_true_iff in Hc as [Hx Hc].
        assert (Hfar : ∀ l, l ∈ m → l ≠ - x).
        { intros l Hl.
          pose proof (complete_range n (v + 1) m l ltac:(lia) Hc Hl).
          apply orb_true_iff in Hx as [Hx|Hx]; apply Z.eqb_eq in Hx; lia. }
        apply sat_assign in Hs; [| done].
        apply orb_true_iff in Hx as [Hx|Hx]; apply Z.eqb_eq in Hx; subst x.
        -- left. exists m. split; [done |]. apply IH; [lia | done].
        -- right. exists m. split; [done |]. apply IH; [lia | done].
Qed.

Lemma enum_NoDup n : ∀ v cls, 0 < v → NoDup (enum n v cls).
Proof.
  induction n as [|n IH]; intros v cls Hv; simpl.
  - destruct (existsb is_nil cls); [apply NoDup_nil_2 |].
    destruct (is_nil cls); [apply NoDup_singleton | apply NoDup_nil_2].
  - destruct (existsb is_nil cls); [apply NoDup_nil_2 |].
    apply NoDup_app. split; [| split].
    + apply (NoDup_fmap_2 _), IH. lia.
    + intros m (m1 & -> & _)%list_elem_of_fmap (m2 & Heq & _)%list_elem_of_fmap.
      injection Heq as Heq _. lia.
    + apply (NoDup_fmap_2 _), IH. lia.
Qed.

(** [all_models] lists every model of a formula, each once. *)
Lemma all_models_spec cls m : m ∈ all_models cls ↔ is_model cls m.
Proof. unfold all_models, is_model. by apply enum_spec. Qed.

Lemma all_models_NoDup cls : NoDup (all_models cls).
Proof. by apply enum_NoDup. Qed.


(** ** Blocking clauses *)

Lemma blocking_clause_opp model : blocking_clause model = Z.opp <$> model.
Proof.
  unfold blocking_clause.
  assert (H : ∀ acc,
    foldl (λ blocking lit,
             if bool_decide (lit > 0) then blocking ++ [- lit]
             else blocking ++ [- lit]) acc model = acc ++ (Z.opp <$> model)).
  { induction model as [|l model IH]; intros acc; simpl.
    - by rewrite app_nil_r.
    - destruct (bool_decide (l > 0)); rewrite IH, <- app_assoc; done. }
  apply (H []).
Qed.

(** A complete assignment falsifies the negation of itself. *)
Lemma self_blocked n v m :
  0 < v → complete n v m = true → sat_clause m (Z.opp <$> m) = false.
Proof.
  intros Hv Hc. destruct (sat_clause m (Z.opp <$> m)) eqn:E; [| done].
  apply sat_clause_spec in E as (l & Hl & Hlm).
  apply list_elem_of_fmap in Hl as (x & -> & Hx).
  by destruct (complete_consistent n v m x Hv Hc Hx).
Qed.

Lemma sat_clause_weaken x m c :
  sat_clause (x :: m) c = false → sat_clause m c = false.
Proof.
  intros H. destruct (sat_clause m c) eqn:E; [| done].
  apply sat_clause_spec in E as (l & Hl & Hlm).
  assert (sat_clause (x :: m) c = true); [| congruence].
  apply sat_clause_spec. exists l. split; [done | by right].
Qed.

Lemma sat_clause_tail m x c :
  sat_clause m (x :: c) = false → sat_clause m c = false.
Proof. simpl. by intros [_ ?]%orb_false_iff. Qed.

(** Two complete assignments of the same variables: the negation of one
    is false under the other only when they are the same. *)
Lemma blocked_only_self n : ∀ v m m',
  0 < v → complete n v m = true → complete n v m' = true →
  sat_clause m' (Z.opp <$> m) = false → m' = m.
Proof.
  induction n as [|n IH]; intros v [|x m] [|x' m'] Hv Hc Hc' Hs;
    simpl in Hc, Hc'; try discriminate; [done |].
  apply andb_true_iff in Hc as [Hx Hc]. apply andb_true_iff in Hc' as [Hx' Hc'].
  assert (x' = x) as ->.
  { destruct (decide (x' = x)) as [|Hne]; [done |]. exfalso.
    assert (sat_clause (x' :: m') (Z.opp <$> x :: m) = true); [| congruence].
    apply sat_clause_spec. exists (- x). split; [by left |].
    apply orb_true_iff in Hx as [Hx|Hx]; apply Z.eqb_eq in Hx;
      apply orb_true_iff in Hx' as [Hx'|Hx']; apply Z.eqb_eq in Hx';
      subst; try done; apply elem_of_cons; left; lia. }
  f_equal. apply (IH (v + 1)); [lia | done..|].
  rewrite fmap_cons in Hs. by apply sat_clause_tail, sat_clause_weaken in Hs.
Qed.

Lemma blocking_excludes n v m m' :
  0 < v → complete n v m = true → complete n v m' = true →
  sat_clause m' (blocking_clause m) = false ↔ m' = m.
Proof.
  intros Hv Hc Hc'. rewrite blocking_clause_opp. split.
  - by apply (blocked_only_self n v).
  - intros ->. by apply (self_blocked n v).
Qed.

(** ** The variables a session knows do not grow with blocking clauses *)

Lemma foldr_max_nonneg (l : list Z) : 0 ≤ foldr Z.max 0 l.
Proof. induction l; simpl; lia. Qed.

Lemma foldr_max_app (a b : list Z) :
  foldr Z.max 0 (a ++ b) = Z.max (foldr Z.max 0 a) (foldr Z.max 0 b).
Proof.
  induction a as [|x a IH]; simpl.
  - pose proof (foldr_max_nonneg b). lia.
  - rewrite IH. lia.
Qed.

Lemma foldr_max_le (l : list Z) k :
  0 ≤ k → (∀ x, x ∈ l → x ≤ k) → foldr Z.max 0 l ≤ k.
Proof.
  intros Hk. induction l as [|x l IH]; intros H; simpl; [done |].
  assert (x ≤ k) by (apply H; by left).
  assert (foldr Z.max 0 l ≤ k) by (apply IH; intros y Hy; apply H; by right).
  lia.
Qed.

Lemma nof_vars_nonneg cls : 0 ≤ nof_vars cls.
Proof. apply foldr_max_nonneg. Qed.

Lemma nof_vars_app cls1 cls2 :
  nof_vars (cls1 ++ cls2) = Z.max (nof_vars cls1) (nof_vars cls2).
Proof. unfold nof_vars. by rewrite concat_app, fmap_app, foldr_max_app. Qed.

Lemma nof_vars_blocking cls found :
  (∀ m, m ∈ found → is_model cls m) →
  nof_vars (cls ++ (blocking_clause <$> found)) = nof_vars cls.
Proof.
  intros Hf. rewrite nof_vars_app. apply Z.max_l.
  pose proof (nof_vars_nonneg cls) as Hk.
  apply foldr_max_le; [done |]. intros a Ha.
  apply list_elem_of_fmap in Ha as (l & -> & Hl).
  apply list_elem_of_In, in_concat in Hl as (c & Hc & Hl).
  apply list_elem_of_In in Hc, Hl.
  apply list_elem_of_fmap in Hc as (m & -> & Hm).
  rewrite blocking_clause_opp in Hl.
  apply list_elem_of_fmap in Hl as (x & -> & Hx).
  destruct (Hf m Hm) as [Hc _].
  pose proof (complete_range _ 1 m x ltac:(lia) Hc Hx). lia.
Qed.

(** The models left once the found ones are blocked. *)
Lemma models_blocked cls found m :
  (∀ m', m' ∈ found → is_model cls m') →
  is_model (cls ++ (blocking_clause <$> found)) m ↔
  is_model cls m ∧ m ∉ found.
Proof.
  intros Hf. unfold is_model at 1. rewrite nof_vars_blocking, sat_app by done.
  unfold is_model. split.
  - intros (Hc & Hs & Hb). split; [done |]. intros Hm.
    rewrite sat_spec in Hb.
    specialize (Hb (blocking_clause m) ltac:(by apply list_elem_of_fmap_2)).
    rewrite blocking_clause_opp in Hb.
    rewrite (self_blocked _ 1 m ltac:(lia) Hc) in Hb. done.
  - intros ((Hc & Hs) & Hm). split; [done |]. split; [done |].
    apply sat_spec. intros c (m' & -> & Hm')%list_elem_of_fmap.
    destruct (sat_clause m (blocking_clause m')) eqn:E; [done |].
    destruct (Hf m' Hm') as [Hc' _].
    apply (blocking_excludes _ 1 m' m ltac:(lia) Hc' Hc) in E. by subst.
Qed.

(** ** The lookup of the solver class *)

Lemma solver_map_lookup name :
  solver_map !! name =
    if decide (name = "glucose3"%string) then Some Glucose3
    else if decide (name = "minisat"%string) then Some Minisat22
    else if decide (name = "cadical"%string) then Some Cadical103
    else None.
Proof.
  unfold solver_map. repeat case_decide; subst; simplify_map_eq; done.
Qed.

Lemma lookup_class_is_Some solver_name : is_Some (lookup_class solver_name).
Proof.
  unfold lookup_class, effective_name.
  destruct (solver_map !! lower solver_name) as [cls|] eqn:E.
  - rewrite E. by exists cls.
  - by exists Glucose3.
Qed.

(** ** Loading the formula *)

Section Load.
Context (B : backend) (clauses : session B → list (list Z)).
Context (Hs : sound B clauses).

Lemma load_accepted st cls tr r :
  load B st cls = (tr, r) → accepted tr = [].
Proof.
  revert st tr r. induction cls as [|c cls IH]; intros st tr r; simpl.
  - by intros [= <- <-].
  - destruct (add_clause B st c) as [e|st'] eqn:Ea.
    + by intros [= <- <-].
    + destruct (load B st' cls) as [tr' r'] eqn:El. intros [= <- <-].
      simpl. eauto.
Qed.

Lemma load_clauses st cls tr st' :
  load B st cls = (tr, inr st') → clauses st' = clauses st ++ cls.
Proof.
  revert st tr st'. induction cls as [|c cls IH]; intros st tr st'; simpl.
  - intros [= <- <-]. by rewrite app_nil_r.
  - destruct (add_clause B st c) as [e|st1] eqn:Ea; [done |].
    destruct (load B st1 cls) as [tr' r'] eqn:El. intros [= <- ->].
    rewrite (IH _ _ _ El), (sound_add _ _ Hs _ _ _ Ea), <- app_assoc. done.
Qed.

Lemma load_total st cls :
  decides B clauses → ∃ tr st', load B st cls = (tr, inr st').
Proof.
  intros Hd. revert st. induction cls as [|c cls IH]; intros st; simpl.
  - by eexists _, _.
  - destruct (decides_add _ _ Hd st c) as [st1 ->].
    destruct (IH st1) as (tr & st' & ->). by eexists _, _.
Qed.
End Load.

(** ** The loop against a correct backend *)

Section Exhaustive.
Context (B : backend) (clauses : session B → list (list Z)).
Context (Hs : sound B clauses) (Hd : decides B clauses).
Context (cls : list (list Z)).

Lemma found_bounded (found : list (list Z)) :
  NoDup found → (∀ m, m ∈ found → is_model cls m) →
  (length found ≤ length (all_models cls))%nat.
Proof.
  intros Hn Hf. apply submseteq_length, NoDup_submseteq; [done |].
  intros m Hm. by apply all_models_spec, Hf.
Qed.

Lemma enumerate_exhausts fuel : ∀ st count found,
  clauses st = cls ++ (blocking_clause <$> found) →
  NoDup found →
  (∀ m, m ∈ found → is_model cls m) →
  (length (all_models cls) < fuel + length found)%nat →
  ∃ tr,
    enumerate B fuel st count =
      Some (tr, Return (count + Z.of_nat (length (accepted tr)))) ∧
    NoDup (accepted tr) ∧
    (∀ m, m ∈ accepted tr ↔ is_model cls m ∧ m ∉ found).
Proof.
  induction fuel as [|fuel IH]; intros st count found Hst Hn Hf Hlen.
  - pose proof (found_bounded found Hn Hf). lia.
  - simpl. destruct (all_models (clauses st)) as [|m0 rest] eqn:Em.
    + (* nothing is left: the solver says so, the loop ends *)
      assert (Hno : ¬ ∃ m, is_model (clauses st) m).
      { intros [m Hm]. apply all_models_spec in Hm. rewrite Em in Hm.
        by apply elem_of_nil in Hm. }
      destruct (decides_unsat _ _ Hd st Hno) as [st1 ->]. simpl.
      rewrite (decides_delete _ _ Hd).
      exists [Solve (inr (Some false)); Delete None]. split; [| split].
      * simpl. by rewrite Z.add_0_r.
      * apply NoDup_nil_2.
      * simpl. intros m. split; [by intros ?%elem_of_nil |].
        intros Hm. destruct Hno. exists m. rewrite Hst.
        by apply models_blocked.
    + (* a model is left: it is handed over, counted and blocked *)
      assert (Hyes : ∃ m, is_model (clauses st) m).
      { exists m0. apply all_models_spec. rewrite Em. by left. }
      destruct (decides_sat _ _ Hd st Hyes) as (st1 & st2 & m & Esolve & Eget).
      rewrite Esolve. simpl. rewrite Eget.
      destruct (sound_model _ _ Hs _ _ _ _ _ Esolve eq_refl Eget) as [Hst2 Hm].
      destruct (decides_add _ _ Hd st2 (blocking_clause m)) as [st3 Eadd].
      rewrite Eadd.
      rewrite Hst in Hm. apply models_blocked in Hm as [Hm Hfresh]; [| done].
      destruct (IH st3 (count + 1) (found ++ [m])) as (tr & Etr & Hnd & Hacc).
      * rewrite (sound_add _ _ Hs _ _ _ Eadd), Hst2, Hst, fmap_app.
        by rewrite <- app_assoc.
      * apply NoDup_app. split; [done |]. split; [| apply NoDup_singleton].
        intros x Hx ->%list_elem_of_singleton. done.
      * intros x [Hx| ->%list_elem_of_singleton]%elem_of_app; auto.
      * rewrite length_app. simpl. lia.
      * rewrite Etr. simpl.
        exists (Solve (inr (Some true)) :: GetModel (inr (Some m)) ::
                AddClause (blocking_clause m) None :: tr).
        split; [| split].
        -- simpl. do 3 f_equal. lia.
        -- simpl. apply NoDup_cons. split; [| done].
           intros Hin%Hacc. destruct Hin as [_ Hin]. apply Hin.
           apply elem_of_app. right. by left.
        -- simpl. intros x. rewrite elem_of_cons, Hacc, elem_of_app.
           rewrite list_elem_of_singleton.
           destruct (decide (x = m)) as [->|Hne].
           ++ split; [by intros _ | by left].
           ++ split.
              ** intros [?|[? Hnot]]; [done |]. split; [done |]. tauto.
              ** intros [? ?]. right. split; [done |]. tauto.
Qed.
End Exhaustive.

Lemma accepted_app tr1 tr2 : accepted (tr1 ++ tr2) = accepted tr1 ++ accepted tr2.
Proof.
  induction tr1 as [|e tr1 IH]; [done |].
  destruct e as [| | |[|[|]]|]; simpl; by rewrite ?IH.
Qed.

(** ** [queens] against correct backends counts the models of the formula *)

Lemma queens_counts_models pysat N solver_name fuel :
  (∀ cls, correct (pysat cls)) → 3 < N →
  (length (all_models (cnf N)) < fuel)%nat →
  ∃ tr, queens pysat fuel N solver_name =
          Some (tr, Return (Z.of_nat (length (all_models (cnf N))))) ∧
        accepted tr ≡ₚ all_models (cnf N).
Proof.
  intros Hc HN Hfuel. unfold queens.
  rewrite bool_decide_eq_false_2 by lia.
  destruct (lookup_class_is_Some solver_name) as [cls ->].
  destruct (Hc cls) as (clauses & Hs & Hd).
  destruct (load_total _ _ (new_session (pysat cls)) (cnf N) Hd)
    as (tr0 & st & Eload).
  rewrite Eload.
  pose proof (load_clauses _ _ Hs _ _ _ _ Eload) as Hst.
  rewrite (sound_new _ _ Hs) in Hst. simpl in Hst.
  destruct (enumerate_exhausts _ _ Hs Hd (cnf N) fuel st 0 [])
    as (tr & Etr & Hnd & Hacc).
  { simpl. by rewrite app_nil_r. }
  { apply NoDup_nil_2. }
  { by intros m ?%elem_of_nil. }
  { simpl. lia. }
  assert (Hperm : accepted tr ≡ₚ all_models (cnf N)).
  { apply NoDup_Permutation; [done | apply all_models_NoDup |].
    intros m. rewrite Hacc, all_models_spec. split; [by intros [? _] |].
    intros ?. split; [done | by intros ?%elem_of_nil]. }
  rewrite Etr. simpl. exists (Construct cls :: tr0 ++ tr). split.
  - by rewrite (Permutation_length Hperm).
  - simpl. by rewrite accepted_app, (load_accepted _ _ _ _ _ Eload).
Qed.

Lemma cnf_model_counts :
  length (all_models (cnf 4)) = 2%nat ∧
  length (all_models (cnf 5)) = 10%nat ∧
  length (all_models (cnf 6)) = 4%nat ∧
  length (all_models (cnf 7)) = 40%nat ∧
  length (all_models (cnf 8)) = 92%nat.
Proof. vm_compute. done. Qed.

(** ** The reference backend honours the contract *)

Import Reference.

Lemma first_model_picks : picks first_model.
Proof. intros [|m l] Hl; [done |]. exists m. split; [done | by left]. Qed.

Lemma last_model_picks : picks last_model.
Proof.
  intros l Hl. destruct (last l) as [m|] eqn:E.
  - exists m. split; [done |]. apply last_Some in E as [l' ->].
    apply elem_of_app. right. by left.
  - by apply last_None in E.
Qed.

Lemma ref_sound choose :
  (∀ l m, choose l = Some m → m ∈ l) → sound (ref_backend choose) id.
Proof.
  intros Hch. split; simpl.
  - done.
  - by intros st c st' [= <-].
  - intros st st1 st2 a m [= <- <-] _ [= <- Hm]. split; [done |].
    by apply all_models_spec, Hch.
Qed.

Lemma ref_decides choose : picks choose → decides (ref_backend choose) id.
Proof.
  intros Hch. split; simpl.
  - intros st c. by eexists.
  - intros st [m Hm]. apply all_models_spec in Hm.
    assert (Hne : all_models st ≠ []).
    { intros E. rewrite E in Hm. by apply elem_of_nil in Hm. }
    destruct (Hch _ Hne) as (m' & Em' & _).
    exists st, st, m'. rewrite Em'. split; [| done].
    by destruct (all_models st).
  - intros st Hno. exists st.
    destruct (all_models st) as [|m l] eqn:E; [done |].
    destruct Hno. exists m. apply all_models_spec. rewrite E. by left.
  - done.
Qed.

Lemma first_model_sound : sound (ref_backend first_model) id.
Proof. apply ref_sound. intros [|x l] m [= <-]. by left. Qed.

Lemma last_model_sound : sound (ref_backend last_model) id.
Proof.
  apply ref_sound. intros l m [l' ->]%last_Some.
  apply elem_of_app. right. by left.
Qed.

Lemma first_model_correct : correct (ref_backend first_model).
Proof.
  exists id. split; [apply first_model_sound |].
  apply ref_decides, first_model_picks.
Qed.

Lemma last_model_correct : correct (ref_backend last_model).
Proof.
  exists id. split; [apply last_model_sound |].
  apply ref_decides, last_model_picks.
Qed.

Lemma ref_pysat_sound cls : sound (ref_pysat cls) (ref_clauses cls).
Proof.
  destruct cls; simpl; auto using first_model_sound, last_model_sound.
Qed.

Lemma ref_pysat_correct cls : correct (ref_pysat cls).
Proof.
  destruct cls; simpl; auto using first_model_correct, last_model_correct.
Qed.


Lemma truthy_true answer : truthy answer = true → answer = Some true.
Proof. by destruct answer as [[|]|]. Qed.

Lemma enumerate_shape B fuel : ∀ st count tr r,
  enumerate B fuel st count = Some (tr, r) → run_shape count tr r.
Proof.
  induction fuel as [|fuel IH]; intros st count tr r; simpl; [done |].
  destruct (solve B st) as [e|[st1 answer]].
  { intros [= <- <-]. constructor. }
  destruct (truthy answer) eqn:Et.
  - apply truthy_true in Et as ->.
    destruct (get_model B st1) as [e|[st2 [m|]]].
    + intros [= <- <-]. constructor.
    + destruct (add_clause B st2 (blocking_clause m)) as [e|st3].
      * intros [= <- <-]. constructor.
      * destruct (enumerate B fuel st3 (count + 1)) as [[tr' r']|] eqn:E;
          simpl; [| done].
        intros [= <- <-]. constructor. by eapply IH.
    + intros [= <- <-]. constructor.
  - destruct (delete B st1) as [e|]; intros [= <- <-]; by constructor.
Qed.

Lemma load_has_shape B st cls tr r :
  load B st cls = (tr, r) →
  load_shape tr (match r with inl e => Some e | inr _ => None end).
Proof.
  revert st tr r. induction cls as [|c cls IH]; intros st tr r; simpl.
  - intros [= <- <-]. constructor.
  - destruct (add_clause B st c) as [e|st'].
    + intros [= <- <-]. constructor.
    + destruct (load B st' cls) as [tr' r'] eqn:El. intros [= <- <-].
      constructor. by eapply IH.
Qed.

Lemma queens_has_shape pysat fuel N solver_name tr r :
  3 < N → queens pysat fuel N solver_name = Some (tr, r) → queens_shape tr r.
Proof.
  intros HN. unfold queens. rewrite bool_decide_eq_false_2 by lia.
  destruct (lookup_class_is_Some solver_name) as [cls ->].
  destruct (load (pysat cls) (new_session (pysat cls)) (cnf N))
    as [tr0 [e|st]] eqn:El; apply load_has_shape in El.
  - intros [= <- <-]. by constructor.
  - destruct (enumerate (pysat cls) fuel st 0) as [[tr1 r1]|] eqn:E;
      simpl; [| done].
    intros [= <- <-]. constructor; [done |]. by eapply enumerate_shape.
Qed.

Lemma ends_in_fault_cons e tr :
  tr ≠ [] → ends_in_fault (e :: tr) = ends_in_fault tr.
Proof.
  intros Hne. unfold ends_in_fault. rewrite last_cons.
  destruct (last tr) eqn:E; [done |]. by apply last_None in E.
Qed.

Lemma ends_in_fault_app tr1 tr2 :
  tr2 ≠ [] → ends_in_fault (tr1 ++ tr2) = ends_in_fault tr2.
Proof.
  intros Hne. unfold ends_in_fault. rewrite last_app.
  destruct (last tr2) eqn:E; [done |]. by apply last_None in E.
Qed.

Lemma count_events_app p tr1 tr2 :
  count_events p (tr1 ++ tr2) = (count_events p tr1 + count_events p tr2)%nat.
Proof. unfold count_events. by rewrite List.filter_app, length_app. Qed.

Lemma run_release count tr r :
  run_shape count tr r →
  tr ≠ [] ∧
  count_events is_construct tr = 0%nat ∧
  count_events is_delete tr = (if ends_in_fault tr then 0 else 1)%nat ∧
  (if ends_in_fault tr then ∃ e, r = Raised e
   else r = Return (count + Z.of_nat (length (accepted tr)))
        ∨ ∃ e, r = Raised e ∧ last tr = Some (Delete (Some e))).
Proof.
  induction 1 as [count e|count a Ha|count a e Ha|count e|count|count m e
                 |count m tr r Hrun (Hne & Hc & Hd & Hr)].
  - repeat split; try done. by exists e.
  - repeat split; try done. left. simpl. by rewrite Z.add_0_r.
  - repeat split; try done. right. by exists e.
  - repeat split; try done. by exists e.
  - repeat split; try done. by exists TypeError.
  - repeat split; try done. by exists e.
  - rewrite !ends_in_fault_cons by (done || by destruct tr).
    split; [done |]. split; [done |]. split; [done |].
    destruct (ends_in_fault tr); [done |].
    destruct Hr as [->|(e & -> & Hl)].
    + left. simpl. f_equal. lia.
    + right. exists e. split; [done |]. rewrite !last_cons, Hl. done.
Qed.

Lemma load_release tr r :
  load_shape tr r →
  count_events is_construct tr = 0%nat ∧
  count_events is_delete tr = 0%nat ∧
  match r with
  | Some e => tr ≠ [] ∧ ends_in_fault tr = true
  | None => True
  end.
Proof.
  induction 1 as [|c e|c tr r Hl (Hc & Hd & Hr)]; [done.. |].
  split; [done |]. split; [done |]. destruct r as [e|]; [| done].
  destruct Hr as [Hne Hf]. split; [done |]. by rewrite ends_in_fault_cons.
Qed.

(** ** Faults *)

Lemma run_faults count tr r :
  run_shape count tr r →
  (∀ e, Solve (inl e) ∈ tr → r = Raised e) ∧
  (Solve (inr None) ∈ tr →
   ∃ tr' d, tr = tr' ++ [Solve (inr None); Delete d] ∧
     r = match d with
         | None => Return (count + Z.of_nat (length (accepted tr)))
         | Some e => Raised e
         end).
Proof.
  induction 1 as [count e|count a Ha|count a e Ha|count e|count|count m e
                 |count m tr r Hrun [IHr IHn]].
  - split; [intros e' H | intros H]; split_elem H. done.
  - split; [intros e' H | intros H]; split_elem H.
    exists [], None. simpl. by rewrite Z.add_0_r.
  - split; [intros e' H | intros H]; split_elem H.
    by exists [], (Some e).
  - split; [intros e' H | intros H]; split_elem H.
  - split; [intros e' H | intros H]; split_elem H.
  - split; [intros e' H | intros H]; split_elem H.
  - split.
    + intros e H. apply IHr.
      do 3 (apply elem_of_cons in H as [H|H]; [done |]). done.
    + intros H.
      do 3 (apply elem_of_cons in H as [H|H]; [done |]).
      destruct (IHn H) as (tr' & d & -> & ->).
      exists (Solve (inr (Some true)) :: GetModel (inr (Some m)) ::
              AddClause (blocking_clause m) None :: tr'), d.
      split; [done |]. destruct d; [done |]. simpl. f_equal. lia.
Qed.

Lemma load_only_adds tr r e :
  load_shape tr r → e ∈ tr → ∃ c x, e = AddClause c x.
Proof.
  induction 1 as [|c e'|c tr r Hl IH]; intros Hin.
  - by apply elem_of_nil in Hin.
  - apply list_elem_of_singleton in Hin as ->. by eexists _, _.
  - apply elem_of_cons in Hin as [->|Hin]; [by eexists _, _ | auto].
Qed.

Lemma run_blocks count tr r : run_shape count tr r → blocks_follow tr.
Proof.
  induction 1 as [count e|count a Ha|count a e Ha|count e|count|count m e
                 |count m tr r Hrun IH]; simpl; try done.
  - by rewrite blocking_clause_opp.
  - rewrite blocking_clause_opp. split; [| done]. split; [done |].
    by destruct Hrun.
Qed.

Lemma load_blocks tr0 r tr :
  load_shape tr0 r → blocks_follow tr → blocks_follow (tr0 ++ tr).
Proof. induction 1; simpl; auto. Qed.

Lemma load_blocks_accepted tr r : load_shape tr r → accepted tr = [].
Proof. induction 1; simpl; auto. Qed.

(** ** Accepted models against a sound backend *)

Section Distinct.
Context (B : backend) (clauses : session B → list (list Z)).
Context (Hs : sound B clauses).

Lemma fresh_model st m (found : list (list Z)) :
  (∀ m', m' ∈ found → blocking_clause m' ∈ clauses st) →
  is_model (clauses st) m → m ∉ found.
Proof.
  intros Hb [Hc Hsat] Hin. rewrite sat_spec in Hsat.
  specialize (Hsat _ (Hb m Hin)). rewrite blocking_clause_opp in Hsat.
  rewrite (self_blocked _ 1 m ltac:(lia) Hc) in Hsat. discriminate.
Qed.

Lemma enumerate_distinct fuel : ∀ st count (found : list (list Z)) tr r,
  (∀ m', m' ∈ found → blocking_clause m' ∈ clauses st) →
  enumerate B fuel st count = Some (tr, r) →
  NoDup (accepted tr) ∧ ∀ m, m ∈ accepted tr → m ∉ found.
Proof.
  induction fuel as [|fuel IH]; intros st count found tr r Hb; simpl; [done |].
  destruct (solve B st) as [e|[st1 a]] eqn:Es.
  { intros [= <- <-]. simpl. split; [apply NoDup_nil_2 |].
    by intros m ?%elem_of_nil. }
  destruct (truthy a) eqn:Et.
  - destruct (get_model B st1) as [e|[st2 [m|]]] eqn:Eg.
    + intros [= <- <-]. simpl. split; [apply NoDup_nil_2 |].
      by intros m ?%elem_of_nil.
    + destruct (sound_model _ _ Hs _ _ _ _ _ Es Et Eg) as [Hst2 Hm].
      pose proof (fresh_model st m found Hb Hm) as Hfresh.
      destruct (add_clause B st2 (blocking_clause m)) as [e|st3] eqn:Ea.
      * intros [= <- <-]. simpl. split; [apply NoDup_singleton |].
        by intros m' ->%list_elem_of_singleton.
      * destruct (enumerate B fuel st3 (count + 1)) as [[tr' r']|] eqn:E;
          simpl; [| done].
        intros [= <- <-]. simpl.
        destruct (IH st3 (count + 1) (m :: found) tr' r') as [Hnd Hnew];
          [| done |].
        { intros m' Hm'. rewrite (sound_add _ _ Hs _ _ _ Ea), Hst2.
          apply elem_of_app. apply elem_of_cons in Hm' as [->|Hm'].
          - right. by left.
          - left. auto. }
        split.
        -- apply NoDup_cons. split; [| done]. intros Hin.
           apply (Hnew m Hin). by left.
        -- intros m' [->|Hin]%elem_of_cons; [done |].
           intros Hf. apply (Hnew m' Hin). by right.
    + intros [= <- <-]. simpl. split; [apply NoDup_nil_2 |].
      by intros m ?%elem_of_nil.
  - destruct (delete B st1); intros [= <- <-]; simpl;
      (split; [apply NoDup_nil_2 | by intros m ?%elem_of_nil]).
Qed.
End Distinct.

(** ** Variables and cells *)

Lemma var_range N i j :
  0 ≤ i < N → 0 ≤ j < N → 1 ≤ var N i j ≤ N * N.
Proof. unfold var. intros Hi Hj. nia. Qed.

Lemma var_inj N i j i' j' :
  0 ≤ j < N → 0 ≤ j' < N → var N i j = var N i' j' → i = i' ∧ j = j'.
Proof. unfold var. intros Hj Hj' Heq. assert (i = i') by nia. subst. lia. Qed.

Lemma var_surj N v :
  1 ≤ N → 1 ≤ v ≤ N * N →
  ∃ i j, 0 ≤ i < N ∧ 0 ≤ j < N ∧ var N i j = v.
Proof.
  intros HN Hv. exists ((v - 1) `div` N), ((v - 1) `mod` N).
  pose proof (Z.mod_pos_bound (v - 1) N ltac:(lia)).
  pose proof (Z.div_mod (v - 1) N ltac:(lia)).
  assert (0 ≤ (v - 1) `div` N) by (apply Z.div_pos; lia).
  assert ((v - 1) `div` N < N) by (apply Z.div_lt_upper_bound; lia).
  unfold var. repeat split; lia.
Qed.

(** ** Ranges and the pair loops *)

Lemma elem_of_range k n : k ∈ range n ↔ 0 ≤ k < n.
Proof. unfold range. rewrite elem_of_seqZ. lia. Qed.

Lemma elem_of_range_from k a b : k ∈ range_from a b ↔ a ≤ k < b.
Proof. unfold range_from. rewrite elem_of_seqZ. lia. Qed.

Lemma NoDup_range n : NoDup (range n).
Proof. apply NoDup_seqZ. Qed.

Lemma NoDup_range_from a b : NoDup (range_from a b).
Proof. apply NoDup_seqZ. Qed.

Section Pairs.
Context (g : Z → Z → list Z) (n : Z).

Lemma elem_of_pair_loop c :
  c ∈ pair_loop g n ↔ ∃ k1 k2, 0 ≤ k1 < k2 ∧ k2 < n ∧ c = g k1 k2.
Proof.
  unfold pair_loop. rewrite list_elem_of_bind. split.
  - intros (k1 & Hc & Hk1). apply list_elem_of_bind in Hc as (k2 & Hc & Hk2).
    apply list_elem_of_singleton in Hc.
    apply elem_of_range in Hk1. apply elem_of_range_from in Hk2.
    exists k1, k2. repeat split; (lia || done).
  - intros (k1 & k2 & Hk & Hn & ->). exists k1. split.
    + apply list_elem_of_bind. exists k2. split; [by left |].
      apply elem_of_range_from. lia.
    + apply elem_of_range. lia.
Qed.

Lemma NoDup_pair_loop :
  (∀ k1 k2 k1' k2', 0 ≤ k1 < k2 → k2 < n → 0 ≤ k1' < k2' → k2' < n →
     g k1 k2 = g k1' k2' → k1 = k1' ∧ k2 = k2') →
  NoDup (pair_loop g n).
Proof.
  intros Hinj. unfold pair_loop. apply NoDup_bind; [| | apply NoDup_range].
  - intros k1 k1' c Hk1 Hk1' Hc Hc'.
    apply list_elem_of_bind in Hc as (k2 & Hc & Hk2).
    apply list_elem_of_bind in Hc' as (k2' & Hc' & Hk2').
    apply list_elem_of_singleton in Hc, Hc'. subst c.
    apply elem_of_range in Hk1, Hk1'. apply elem_of_range_from in Hk2, Hk2'.
    apply (Hinj k1 k2 k1' k2'); (lia || done).
  - intros k1 Hk1. apply elem_of_range in Hk1.
    apply NoDup_bind; [| | apply NoDup_range_from].
    + intros k2 k2' c Hk2 Hk2' Hc Hc'.
      apply list_elem_of_singleton in Hc, Hc'. subst c.
      apply elem_of_range_from in Hk2, Hk2'.
      apply (Hinj k1 k2 k1 k2'); (lia || done).
    + intros k2 _. apply NoDup_singleton.
Qed.
End Pairs.

Lemma row_pairs_loop N i :
  row_pairs N i = pair_loop (λ j1 j2, [- var N i j1; - var N i j2]) N.
Proof. done. Qed.

Lemma pairwise_loop vs :
  pairwise vs =
    pair_loop (λ k1 k2, [- (vs !!! Z.to_nat k1); - (vs !!! Z.to_nat k2)])
      (Z.of_nat (length vs)).
Proof. done. Qed.

Lemma columns_loop N :
  columns N = j ← range N; pair_loop (λ i1 i2, [- var N i1 j; - var N i2 j]) N.
Proof. done. Qed.

(** ** Order of occurrence *)

Lemma before_lookup {A} (a b : A) l :
  before a b l ↔
  ∃ k1 k2 : nat, (k1 < k2)%nat ∧ l !! k1 = Some a ∧ l !! k2 = Some b.
Proof.
  induction l as [|x l IH]; simpl.
  - split; [done |]. by intros (k1 & k2 & _ & ? & _).
  - rewrite IH. split.
    + intros [[-> Hb]|(k1 & k2 & Hk & H1 & H2)].
      * apply list_elem_of_lookup in Hb as [k Hk].
        exists O, (S k). repeat split; (lia || done).
      * exists (S k1), (S k2). repeat split; (lia || done).
    + intros (k1 & k2 & Hk & H1 & H2). destruct k2 as [|k2]; [lia |].
      simpl in H2. destruct k1 as [|k1]; simpl in H1.
      * left. split; [congruence |]. by eapply list_elem_of_lookup_2.
      * right. exists k1, k2. repeat split; (lia || done).
Qed.

Lemma before_seqZ a b m n : before a b (seqZ m n) ↔ m ≤ a < b ∧ b < m + n.
Proof.
  rewrite before_lookup. split.
  - intros (k1 & k2 & Hk & H1 & H2).
    apply lookup_seqZ in H1 as [-> ?]. apply lookup_seqZ in H2 as [-> ?]. lia.
  - intros [Ha Hb]. exists (Z.to_nat (a - m)), (Z.to_nat (b - m)).
    split; [lia |]. split; apply lookup_seqZ; lia.
Qed.

Section Select.
Context (P : Z → Prop) `{∀ i, Decision (P i)} (f : Z → Z).

Lemma elem_of_select l a : a ∈ select P f l ↔ ∃ i, i ∈ l ∧ P i ∧ a = f i.
Proof.
  unfold select. rewrite list_elem_of_bind. split.
  - intros (i & Ha & Hi). destruct (decide (P i)) as [HP|HP].
    + rewrite bool_decide_eq_true_2 in Ha by done.
      apply list_elem_of_singleton in Ha. by exists i.
    + rewrite bool_decide_eq_false_2 in Ha by done.
      by apply elem_of_nil in Ha.
  - intros (i & Hi & HP & ->). exists i. split; [| done].
    rewrite bool_decide_eq_true_2 by done. by left.
Qed.

Lemma before_select l a b :
  before a b (select P f l) ↔
  ∃ i1 i2, before i1 i2 l ∧ P i1 ∧ P i2 ∧ a = f i1 ∧ b = f i2.
Proof.
  induction l as [|x l IH].
  - simpl. split; [done |]. by intros (i1 & i2 & ? & _).
  - unfold select in *. rewrite bind_cons. simpl before at 2.
    case_bool_decide as HP; simpl.
    + rewrite IH. fold (select P f l). rewrite elem_of_select. split.
      * intros [[-> (i2 & Hi2 & HP2 & ->)]|(i1 & i2 & Hb & ?)].
        -- exists x, i2. repeat split; (done || by left).
        -- exists i1, i2. split; [by right | done].
      * intros (i1 & i2 & [[-> Hi2]|Hb] & HP1 & HP2 & -> & ->).
        -- left. split; [done |]. by exists i2.
        -- right. by exists i1, i2.
    + rewrite IH. split.
      * intros (i1 & i2 & Hb & ?). exists i1, i2. split; [by right | done].
      * intros (i1 & i2 & [[-> Hi2]|Hb] & HP1 & HP2 & -> & ->); [done |].
        by exists i1, i2.
Qed.

Lemma NoDup_select l :
  (∀ i i', i ∈ l → i' ∈ l → P i → P i' → f i = f i' → i = i') →
  NoDup l → NoDup (select P f l).
Proof.
  intros Hinj Hl. unfold select. apply NoDup_bind; [| | done].
  - intros i i' a Hi Hi' Ha Ha'.
    destruct (decide (P i)) as [HP|HP];
      [rewrite bool_decide_eq_true_2 in Ha by done
      |rewrite bool_decide_eq_false_2 in Ha by done;
       by apply elem_of_nil in Ha].
    destruct (decide (P i')) as [HP'|HP'];
      [rewrite bool_decide_eq_true_2 in Ha' by done
      |rewrite bool_decide_eq_false_2 in Ha' by done;
       by apply elem_of_nil in Ha'].
    apply list_elem_of_singleton in Ha, Ha'. subst a. by apply Hinj.
  - intros i _. case_bool_decide; [apply NoDup_singleton | apply NoDup_nil_2].
Qed.
End Select.

Lemma diagonal_vars_select N d :
  diagonal_vars N d =
    select (λ i, 0 ≤ i - d < N) (λ i, var N i (i - d)) (range N).
Proof. done. Qed.

Lemma anti_diagonal_vars_select N d :
  anti_diagonal_vars N d =
    select (λ i, 0 ≤ d - i < N) (λ i, var N i (d - i)) (range N).
Proof. done. Qed.

(** The pairwise loop over a list without repetition. *)
Lemma elem_of_pairwise vs c :
  c ∈ pairwise vs ↔ ∃ a b, before a b vs ∧ c = [- a; - b].
Proof.
  rewrite pairwise_loop, elem_of_pair_loop. split.
  - intros (k1 & k2 & Hk & Hn & ->).
    exists (vs !!! Z.to_nat k1), (vs !!! Z.to_nat k2). split; [| done].
    apply before_lookup. exists (Z.to_nat k1), (Z.to_nat k2).
    split; [lia |]. split; apply list_lookup_lookup_total_lt; lia.
  - intros (a & b & Hb & ->).
    apply before_lookup in Hb as (k1 & k2 & Hk & H1 & H2).
    pose proof (lookup_lt_Some _ _ _ H2).
    exists (Z.of_nat k1), (Z.of_nat k2). split; [lia |]. split; [lia |].
    rewrite !Nat2Z.id.
    by rewrite (list_lookup_total_correct _ _ _ H1),
               (list_lookup_total_correct _ _ _ H2).
Qed.

Lemma NoDup_pairwise vs : NoDup vs → NoDup (pairwise vs).
Proof.
  intros Hvs. rewrite pairwise_loop. apply NoDup_pair_loop.
  intros k1 k2 k1' k2' Hk Hn Hk' Hn' [= E1 E2].
  assert (∀ k k', 0 ≤ k < Z.of_nat (length vs) →
            0 ≤ k' < Z.of_nat (length vs) →
            vs !!! Z.to_nat k = vs !!! Z.to_nat k' → k = k') as Hidx.
  { intros k k' Hlt Hlt' E.
    assert (Z.to_nat k = Z.to_nat k'); [| lia].
    apply (NoDup_lookup vs _ _ (vs !!! Z.to_nat k) Hvs).
    - apply list_lookup_lookup_total_lt. lia.
    - rewrite E. apply list_lookup_lookup_total_lt. lia. }
  split; apply Hidx; (lia || done).
Qed.

(** ** The four families of clauses, cell by cell *)

Lemma excl_inj N i1 j1 i2 j2 i1' j1' i2' j2' :
  on_board N i1 j1 → on_board N i2 j2 →
  on_board N i1' j1' → on_board N i2' j2' →
  excl N i1 j1 i2 j2 = excl N i1' j1' i2' j2' →
  i1 = i1' ∧ j1 = j1' ∧ i2 = i2' ∧ j2 = j2'.
Proof.
  intros [? ?] [? ?] [? ?] [? ?] [= E1 E2].
  destruct (var_inj N i1 j1 i1' j1') as [-> ->]; [done | done | lia |].
  destruct (var_inj N i2 j2 i2' j2') as [-> ->]; [done | done | lia |].
  done.
Qed.

Lemma row_clause_head N i :
  1 ≤ N → ∃ tl, row_clause N i = var N i 0 :: tl.
Proof.
  intros HN. unfold row_clause, range. rewrite seqZ_cons by lia.
  by eexists.
Qed.

Lemma row_clause_no_excl N i i1 j1 i2 j2 :
  1 ≤ N → 0 ≤ i < N → on_board N i1 j1 →
  row_clause N i ≠ excl N i1 j1 i2 j2.
Proof.
  intros HN Hi [? ?] E. destruct (row_clause_head N i HN) as [tl Htl].
  rewrite Htl in E. injection E as E _.
  pose proof (var_range N i 0 ltac:(lia) ltac:(lia)).
  pose proof (var_range N i1 j1 ltac:(lia) ltac:(lia)). lia.
Qed.

Lemma row_clause_inj N i i' :
  1 ≤ N → row_clause N i = row_clause N i' → i = i'.
Proof.
  intros HN E. destruct (row_clause_head N i HN) as [tl Htl].
  destruct (row_clause_head N i' HN) as [tl' Htl'].
  rewrite Htl, Htl' in E. injection E as E _.
  by destruct (var_inj N i 0 i' 0 ltac:(lia) ltac:(lia) E).
Qed.

Lemma elem_of_row_pairs N i c :
  0 ≤ i < N →
  c ∈ row_pairs N i ↔
  ∃ j1 j2, 0 ≤ j1 < j2 ∧ j2 < N ∧ c = excl N i j1 i j2.
Proof. intros _. rewrite row_pairs_loop. apply elem_of_pair_loop. Qed.

Lemma elem_of_rows N c :
  c ∈ rows N ↔
  (∃ i, 0 ≤ i < N ∧ c = row_clause N i) ∨ excl_family N same_row c.
Proof.
  unfold rows. rewrite list_elem_of_bind. split.
  - intros (i & Hc & Hi). apply elem_of_range in Hi.
    apply elem_of_cons in Hc as [->|Hc]; [left; by exists i |].
    apply elem_of_row_pairs in Hc as (j1 & j2 & Hj & Hn & ->); [| done].
    right. exists i, j1, i, j2. unfold on_board, same_row.
    repeat split; (lia || done).
  - intros [(i & Hi & ->)|(i1 & j1 & i2 & j2 & [? ?] & [? ?] & [<- ?] & ->)].
    + exists i. split; [by left | by apply elem_of_range].
    + exists i1. split; [| by apply elem_of_range]. right.
      apply elem_of_row_pairs; [done |]. exists j1, j2.
      repeat split; (lia || done).
Qed.

Lemma elem_of_columns N c : c ∈ columns N ↔ excl_family N same_column c.
Proof.
  rewrite columns_loop, list_elem_of_bind. split.
  - intros (j & Hc & Hj). apply elem_of_range in Hj.
    apply elem_of_pair_loop in Hc as (i1 & i2 & Hi & Hn & ->).
    exists i1, j, i2, j. unfold on_board, same_column.
    repeat split; (lia || done).
  - intros (i1 & j1 & i2 & j2 & [? ?] & [? ?] & [<- ?] & ->).
    exists j1. split; [| by apply elem_of_range].
    apply elem_of_pair_loop. exists i1, i2. repeat split; (lia || done).
Qed.

Lemma elem_of_diagonals N c :
  c ∈ diagonals N ↔ excl_family N same_diagonal c.
Proof.
  unfold diagonals. rewrite list_elem_of_bind. split.
  - intros (d & Hc & Hd). apply elem_of_range_from in Hd.
    apply elem_of_pairwise in Hc as (a & b & Hb & ->).
    rewrite diagonal_vars_select in Hb.
    apply before_select in Hb as (i1 & i2 & Hb & H1 & H2 & -> & ->).
    apply before_seqZ in Hb.
    exists i1, (i1 - d), i2, (i2 - d). unfold on_board, same_diagonal.
    repeat split; (lia || done).
  - intros (i1 & j1 & i2 & j2 & [? ?] & [? ?] & [E ?] & ->).
    exists (i1 - j1). split; [| apply elem_of_range_from; lia].
    apply elem_of_pairwise. exists (var N i1 j1), (var N i2 j2).
    split; [| done]. rewrite diagonal_vars_select. apply before_select.
    exists i1, i2. split; [apply before_seqZ; lia |].
    repeat split; try lia; f_equal; lia.
Qed.

Lemma elem_of_anti_diagonals N c :
  c ∈ anti_diagonals N ↔ excl_family N same_anti_diagonal c.
Proof.
  unfold anti_diagonals. rewrite list_elem_of_bind. split.
  - intros (d & Hc & Hd). apply elem_of_range in Hd.
    apply elem_of_pairwise in Hc as (a & b & Hb & ->).
    rewrite anti_diagonal_vars_select in Hb.
    apply before_select in Hb as (i1 & i2 & Hb & H1 & H2 & -> & ->).
    apply before_seqZ in Hb.
    exists i1, (d - i1), i2, (d - i2). unfold on_board, same_anti_diagonal.
    repeat split; (lia || done).
  - intros (i1 & j1 & i2 & j2 & [? ?] & [? ?] & [E ?] & ->).
    exists (i1 + j1). split; [| apply elem_of_range; lia].
    apply elem_of_pairwise. exists (var N i1 j1), (var N i2 j2).
    split; [| done]. rewrite anti_diagonal_vars_select. apply before_select.
    exists i1, i2. split; [apply before_seqZ; lia |].
    repeat split; try lia; f_equal; lia.
Qed.

(** ** No clause is appended twice *)

Lemma family_disjoint N (R R' : Z → Z → Z → Z → Prop) c :
  (∀ i1 j1 i2 j2, R i1 j1 i2 j2 → R' i1 j1 i2 j2 → False) →
  excl_family N R c → excl_family N R' c → False.
Proof.
  intros Hno (i1 & j1 & i2 & j2 & H1 & H2 & HR & ->)
             (i1' & j1' & i2' & j2' & H1' & H2' & HR' & E).
  apply excl_inj in E as (-> & -> & -> & ->); [| done..].
  by eapply Hno.
Qed.

Lemma NoDup_row_pairs N i : NoDup (row_pairs N i).
Proof.
  rewrite row_pairs_loop. apply NoDup_pair_loop.
  intros k1 k2 k1' k2' Hk Hn Hk' Hn' [= E1 E2].
  destruct (var_inj N i k1 i k1') as [_ ->]; [lia | lia | lia |].
  destruct (var_inj N i k2 i k2') as [_ ->]; [lia | lia | lia |]. done.
Qed.

Lemma NoDup_rows N : 1 ≤ N → NoDup (rows N).
Proof.
  intros HN. unfold rows. apply NoDup_bind; [| | apply NoDup_range].
  - intros i i' c Hi Hi' Hc Hc'.
    apply elem_of_range in Hi, Hi'.
    apply elem_of_cons in Hc as [->|Hc]; apply elem_of_cons in Hc' as [E|Hc'].
    + by apply (row_clause_inj N).
    + apply elem_of_row_pairs in Hc' as (j1 & j2 & Hj & Hn & E); [| done].
      by destruct (row_clause_no_excl N i i' j1 i' j2 HN Hi ltac:(split; lia)).
    + subst c. apply elem_of_row_pairs in Hc as (j1 & j2 & Hj & Hn & E);
        [| done].
      by destruct (row_clause_no_excl N i' i j1 i j2 HN Hi' ltac:(split; lia)).
    + apply elem_of_row_pairs in Hc as (j1 & j2 & Hj & Hn & ->); [| done].
      apply elem_of_row_pairs in Hc' as (j1' & j2' & Hj' & Hn' & E); [| done].
      apply excl_inj in E as (-> & _); (done || split; lia).
  - intros i Hi. apply elem_of_range in Hi. apply NoDup_cons.
    split; [| apply NoDup_row_pairs].
    intros (j1 & j2 & Hj & Hn & E)%elem_of_row_pairs; [| done].
    by destruct (row_clause_no_excl N i i j1 i j2 HN Hi ltac:(split; lia)).
Qed.

Lemma NoDup_columns N : NoDup (columns N).
Proof.
  rewrite columns_loop. apply NoDup_bind; [| | apply NoDup_range].
  - intros j j' c Hj Hj' Hc Hc'. apply elem_of_range in Hj, Hj'.
    apply elem_of_pair_loop in Hc as (i1 & i2 & Hi & Hn & ->).
    apply elem_of_pair_loop in Hc' as (i1' & i2' & Hi' & Hn' & [= E1 E2]).
    by destruct (var_inj N i1 j i1' j' ltac:(lia) ltac:(lia) ltac:(lia)).
  - intros j Hj. apply elem_of_range in Hj. apply NoDup_pair_loop.
    intros k1 k2 k1' k2' Hk Hn Hk' Hn' [= E1 E2].
    destruct (var_inj N k1 j k1' j) as [-> _]; [lia | lia | lia |].
    destruct (var_inj N k2 j k2' j) as [-> _]; [lia | lia | lia |]. done.
Qed.

Lemma NoDup_diagonal_vars N d : NoDup (diagonal_vars N d).
Proof.
  rewrite diagonal_vars_select. apply NoDup_select; [| apply NoDup_range].
  intros i i' _ _ Hi Hi' E.
  by destruct (var_inj N i (i - d) i' (i' - d) Hi Hi' E).
Qed.

Lemma NoDup_anti_diagonal_vars N d : NoDup (anti_diagonal_vars N d).
Proof.
  rewrite anti_diagonal_vars_select. apply NoDup_select; [| apply NoDup_range].
  intros i i' _ _ Hi Hi' E.
  by destruct (var_inj N i (d - i) i' (d - i') Hi Hi' E).
Qed.

Lemma NoDup_diagonals N : NoDup (diagonals N).
Proof.
  unfold diagonals. apply NoDup_bind; [| | apply NoDup_range_from].
  - intros d d' c _ _ Hc Hc'.
    apply elem_of_pairwise in Hc as (a & b & Hb & ->).
    apply elem_of_pairwise in Hc' as (a' & b' & Hb' & [= E1 E2]).
    rewrite diagonal_vars_select in Hb, Hb'.
    apply before_select in Hb as (i1 & i2 & _ & H1 & _ & -> & _).
    apply before_select in Hb' as (i1' & i2' & _ & H1' & _ & -> & _).
    destruct (var_inj N i1 (i1 - d) i1' (i1' - d') H1 H1' ltac:(lia)). lia.
  - intros d _. apply NoDup_pairwise, NoDup_diagonal_vars.
Qed.

Lemma NoDup_anti_diagonals N : NoDup (anti_diagonals N).
Proof.
  unfold anti_diagonals. apply NoDup_bind; [| | apply NoDup_range].
  - intros d d' c _ _ Hc Hc'.
    apply elem_of_pairwise in Hc as (a & b & Hb & ->).
    apply elem_of_pairwise in Hc' as (a' & b' & Hb' & [= E1 E2]).
    rewrite anti_diagonal_vars_select in Hb, Hb'.
    apply before_select in Hb as (i1 & i2 & _ & H1 & _ & -> & _).
    apply before_select in Hb' as (i1' & i2' & _ & H1' & _ & -> & _).
    destruct (var_inj N i1 (d - i1) i1' (d' - i1') H1 H1' ltac:(lia)). lia.
  - intros d _. apply NoDup_pairwise, NoDup_anti_diagonal_vars.
Qed.

Lemma NoDup_cnf N : 1 ≤ N → NoDup (cnf N).
Proof.
  intros HN. unfold cnf.
  apply NoDup_app. split; [by apply NoDup_rows |]. split.
  - intros c Hr Hc. apply elem_of_rows in Hr.
    assert (Hfam : excl_family N same_column c ∨
                   excl_family N same_diagonal c ∨
                   excl_family N same_anti_diagonal c).
    { rewrite !elem_of_app in Hc.
      rewrite elem_of_columns, elem_of_diagonals, elem_of_anti_diagonals in Hc.
      done. }
    destruct Hr as [(i & Hi & ->)|Hr].
    + destruct Hfam as [H|[H|H]];
        destruct H as (i1 & j1 & i2 & j2 & H1 & _ & _ & E);
        by destruct (row_clause_no_excl N i i1 j1 i2 j2 HN Hi H1).
    + destruct Hfam as [H|[H|H]]; revert Hr H; apply family_disjoint;
        unfold same_row, same_column, same_diagonal, same_anti_diagonal; lia.
  - apply NoDup_app. split; [apply NoDup_columns |]. split.
    + intros c Hc Hd. apply elem_of_columns in Hc.
      rewrite elem_of_app, elem_of_diagonals, elem_of_anti_diagonals in Hd.
      destruct Hd as [H|H]; revert Hc H; apply family_disjoint;
        unfold same_column, same_diagonal, same_anti_diagonal; lia.
    + apply NoDup_app. split; [apply NoDup_diagonals |].
      split; [| apply NoDup_anti_diagonals].
      intros c Hd Ha. apply elem_of_diagonals in Hd.
      apply elem_of_anti_diagonals in Ha. revert Hd Ha.
      apply family_disjoint. unfold same_diagonal, same_anti_diagonal. lia.
Qed.

(** ** The encoding and the specification agree *)

Lemma cnf_spec N c : c ∈ cnf N ↔ spec_clause N c.
Proof.
  unfold cnf.
  rewrite !elem_of_app, elem_of_rows, elem_of_columns, elem_of_diagonals,
    elem_of_anti_diagonals.
  unfold excl_family, on_board, same_row, same_column, same_diagonal,
    same_anti_diagonal, excl. split.
  - intros [[(i & Hi & ->)|H]|[H|[H|H]]].
    + by apply row_at_least_one.
    + destruct H as (i1 & j1 & i2 & j2 & [? ?] & [? ?] & [<- ?] & ->).
      apply row_at_most_one; lia.
    + destruct H as (i1 & j1 & i2 & j2 & [? ?] & [? ?] & [<- ?] & ->).
      apply column_at_most_one; lia.
    + destruct H as (i1 & j1 & i2 & j2 & [? ?] & [? ?] & [? ?] & ->).
      apply (main_diagonal N (i1 - j1)); lia.
    + destruct H as (i1 & j1 & i2 & j2 & [? ?] & [? ?] & [? ?] & ->).
      apply (anti_diagonal N (i1 + j1)); lia.
  - intros [i Hi|i j1 j2 Hi Hj Hn|j i1 i2 Hj Hi Hn
           |d i1 j1 i2 j2 Hd H1 H1' H2 H2' E1 E2 Hlt
           |d i1 j1 i2 j2 Hd H1 H1' H2 H2' E1 E2 Hlt].
    + left. left. by exists i.
    + left. right. exists i, j1, i, j2. repeat split; lia.
    + right. left. exists i1, j, i2, j. repeat split; lia.
    + right. right. left. exists i1, j1, i2, j2. repeat split; lia.
    + right. right. right. exists i1, j1, i2, j2. repeat split; lia.
Qed.

(** With a backend that takes every clause, what [queens] does for
    [N > 3] begins with the construction and the clauses of [cnf N], one
    call each, in order. *)
Lemma load_trace B st cls tr st' :
  load B st cls = (tr, inr st') → tr = (λ c, AddClause c None) <$> cls.
Proof.
  revert st tr. induction cls as [|c cls IH]; intros st tr; simpl.
  - by intros [= <- _].
  - destruct (add_clause B st c) as [e|st1]; [done |].
    destruct (load B st1 cls) as [tr1 r1] eqn:El. intros [= <- ->].
    by rewrite (IH _ _ El).
Qed.

Lemma queens_loads_cnf pysat fuel N solver_name tr r :
  3 < N →
  (∀ cls st c, ∃ st', add_clause (pysat cls) st c = inr st') →
  queens pysat fuel N solver_name = Some (tr, r) →
  ∃ cls tr', lookup_class solver_name = Some cls ∧ tr = loaded cls N ++ tr'.
Proof.
  intros HN Hadd. unfold queens. rewrite bool_decide_eq_false_2 by lia.
  destruct (lookup_class_is_Some solver_name) as [cls ->].
  destruct (load (pysat cls) (new_session (pysat cls)) (cnf N))
    as [tr0 [e|st]] eqn:El.
  - exfalso. clear -El Hadd. revert El.
    generalize (new_session (pysat cls)). generalize (cnf N).
    intros l. revert tr0. induction l as [|c l IH]; intros tr0 st; simpl.
    + done.
    + destruct (Hadd cls st c) as [st1 ->].
      destruct (load (pysat cls) st1 l) as [tr1 r1] eqn:El.
      intros [= <- ->]. by eapply IH.
  - apply load_trace in El as ->.
    destruct (enumerate (pysat cls) fuel st 0) as [[tr1 r1]|]; simpl; [| done].
    intros [= <- <-]. by exists cls, tr1.
Qed.

Lemma queens_on_small pysat fuel N solver_name :
  N ≤ 3 → queens pysat fuel N solver_name = Some ([], Return 0).
Proof. intros HN. unfold queens. by rewrite bool_decide_eq_true_2. Qed.

(** * The properties of the specification *)

(** C1. For N = 4, 5, 6, 7, 8 and each of the names "glucose3",
    "minisat", "cadical", [queens] returns 2, 10, 4, 40, 92: with any
    library whose three classes are correct solvers, so whichever class
    the name selects, and given fuel for the 93 turns the longest of
    these runs takes. *)
Theorem queens_known_counts pysat solver_name fuel :
  (∀ cls, correct (pysat cls)) →
  solver_name ∈ ["glucose3"; "minisat"; "cadical"]%string →
  (92 < fuel)%nat →
  snd <$> queens pysat fuel 4 solver_name = Some (Return 2) ∧
  snd <$> queens pysat fuel 5 solver_name = Some (Return 10) ∧
  snd <$> queens pysat fuel 6 solver_name = Some (Return 4) ∧
  snd <$> queens pysat fuel 7 solver_name = Some (Return 40) ∧
  snd <$> queens pysat fuel 8 solver_name = Some (Return 92).
Proof.
  intros Hc _ Hfuel.
  destruct cnf_model_counts as (H4 & H5 & H6 & H7 & H8).
  assert (Hrun : ∀ N k, 3 < N → length (all_models (cnf N)) = k →
            (k < fuel)%nat →
            snd <$> queens pysat fuel N solver_name =
              Some (Return (Z.of_nat k))).
  { intros N k HN Hk Hlt.
    destruct (queens_counts_models pysat N solver_name fuel Hc HN)
      as (tr & -> & _); [lia |]. simpl. by rewrite Hk. }
  repeat split.
  - apply (Hrun 4 2%nat); [lia | done | lia].
  - apply (Hrun 5 10%nat); [lia | done | lia].
  - apply (Hrun 6 4%nat); [lia | done | lia].
  - apply (Hrun 7 40%nat); [lia | done | lia].
  - apply (Hrun 8 92%nat); [lia | done | lia].
Qed.

Lemma queens_known_counts_witness :
  (∀ cls, correct (ref_pysat cls)) ∧
  "minisat"%string ∈ ["glucose3"; "minisat"; "cadical"]%string ∧
  (92 < 93)%nat ∧
  snd <$> queens ref_pysat 93 4 "minisat" = Some (Return 2) ∧
  snd <$> queens ref_pysat 93 8 "minisat" = Some (Return 92).
Proof.
  assert (Hin : "minisat"%string ∈ ["glucose3"; "minisat"; "cadical"]%string).
  { apply elem_of_cons. right. apply elem_of_cons. by left. }
  split; [apply ref_pysat_correct |]. split; [exact Hin |].
  split; [lia |].
  destruct (queens_known_counts ref_pysat "minisat" 93 ref_pysat_correct Hin
              ltac:(lia)) as (H4 & _ & _ & _ & H8).
  split; [exact H4 | exact H8].
Defined.

(** C2. For N >= 4 the clauses of [cnf N], the formula [queens] builds
    before it touches a solver, are those the specification lists and
    no others: per row the at-least-one clause and the exclusions of
    its pairs of columns, per column the exclusions of its pairs of
    rows, per main diagonal and per anti-diagonal the exclusions of its
    pairs of cells; and each of them is appended once. *)
Theorem cnf_is_the_specified_encoding N :
  4 ≤ N → (∀ c, c ∈ cnf N ↔ spec_clause N c) ∧ NoDup (cnf N).
Proof.
  intros HN. split; [intros c; apply cnf_spec | apply NoDup_cnf; lia].
Qed.

Lemma cnf_is_the_specified_encoding_witness :
  4 ≤ 4 ∧ ([-3; -8] ∈ cnf 4 ↔ spec_clause 4 [-3; -8]) ∧ NoDup (cnf 4).
Proof.
  split; [lia |].
  destruct (cnf_is_the_specified_encoding 4 ltac:(lia)) as [Hin Hnd].
  split; [apply Hin | exact Hnd].
Defined.

(** C3. For N <= 3, zero and negative N included, and any solver name,
    [queens] returns 0 and its trace is empty: no session is constructed
    and nothing is asked of a solver. *)
Theorem queens_small_short_circuits pysat fuel N solver_name :
  N ≤ 3 →
  ∃ tr, queens pysat fuel N solver_name = Some (tr, Return 0) ∧
        tr = [] ∧
        count_events is_construct tr = 0%nat ∧
        count_events is_solve tr = 0%nat.
Proof.
  intros HN. exists []. by rewrite queens_on_small.
Qed.

Lemma queens_small_short_circuits_witness :
  -2 ≤ 3 ∧
  ∃ tr, queens (λ _, Faulty.raising) 0 (-2) "cadical" = Some (tr, Return 0) ∧
        tr = [] ∧
        count_events is_construct tr = 0%nat ∧
        count_events is_solve tr = 0%nat.
Proof.
  split; [lia |].
  apply (queens_small_short_circuits (λ _, Faulty.raising) 0 (-2) "cadical").
  lia.
Defined.

(** C4, as the code has it.  A fault that [solve] raises leaves
    [queens] as that exception, never as a count.  An answer of [solve]
    that is neither [True] nor [False] is falsy: the loop ends there as
    it does on [False], the session is deleted and the count reached so
    far is returned. *)
Theorem faults_raised_or_falsy pysat fuel N solver_name tr r :
  queens pysat fuel N solver_name = Some (tr, r) →
  (∀ e, Solve (inl e) ∈ tr → r = Raised e) ∧
  (Solve (inr None) ∈ tr →
   ∃ tr' d, tr = tr' ++ [Solve (inr None); Delete d] ∧
     r = match d with
         | None => Return (Z.of_nat (length (accepted tr)))
         | Some e => Raised e
         end).
Proof.
  destruct (decide (N ≤ 3)) as [HN|HN].
  { rewrite queens_on_small by done. intros [= <- <-].
    split; [intros e H | intros H]; by apply elem_of_nil in H. }
  intros Hq. apply queens_has_shape in Hq; [| lia].
  destruct Hq as [cls tr0 e Hl|cls tr0 tr r Hl Hrun].
  - split; [intros e' H | intros H];
      (apply elem_of_cons in H as [H|H]; [done |]);
      by destruct (load_only_adds _ _ _ Hl H) as (c & x & ?).
  - destruct (run_faults _ _ _ Hrun) as [Hraise Hnone].
    assert (Hsolve : ∀ a, Solve a ∈ Construct cls :: tr0 ++ tr → Solve a ∈ tr).
    { intros a [H|H]%elem_of_cons; [done |].
      apply elem_of_app in H as [H|H]; [| done].
      by destruct (load_only_adds _ _ _ Hl H) as (c & x & ?). }
    split.
    + intros e He. by apply Hraise, Hsolve.
    + intros Hin. destruct (Hnone (Hsolve _ Hin)) as (tr' & d & -> & ->).
      exists (Construct cls :: tr0 ++ tr'), d.
      split; [simpl; by rewrite app_assoc |].
      destruct d; [done |]. simpl.
      by rewrite (accepted_app tr0), (load_blocks_accepted _ _ Hl).
Qed.

Lemma faults_raised_or_falsy_witness :
  let tr := loaded Glucose3 4 ++ [Solve (inr None); Delete None] in
  queens (λ _, Faulty.undecided) 1 4 "glucose3" = Some (tr, Return 0) ∧
  (∀ e, Solve (inl e) ∈ tr → Return 0 = Raised e) ∧
  (Solve (inr None) ∈ tr →
   ∃ tr' d, tr = tr' ++ [Solve (inr None); Delete d] ∧
     Return 0 = match d with
                | None => Return (Z.of_nat (length (accepted tr)))
                | Some e => Raised e
                end).
Proof.
  intros tr. split; [vm_compute; reflexivity |].
  apply (faults_raised_or_falsy (λ _, Faulty.undecided) 1 4 "glucose3").
  vm_compute. reflexivity.
Defined.

(** C4 as stated fails: with a backend whose [solve] answers [None],
    [queens 4] returns the count 0 as if the formula were unsatisfiable. *)
Lemma fault_masked_as_unsat :
  ¬ (∀ pysat fuel N solver_name tr r,
       queens pysat fuel N solver_name = Some (tr, r) →
       ∀ a, Solve (inr a) ∈ tr → a ≠ Some true → a ≠ Some false →
       ∃ e, r = Raised e).
Proof.
  intros H.
  assert (E : queens (λ _, Faulty.undecided) 1 4 "glucose3" =
              Some (loaded Glucose3 4 ++ [Solve (inr None); Delete None],
                    Return 0)) by (vm_compute; reflexivity).
  destruct (H _ _ _ _ _ _ E None) as [e He]; [| done | done | discriminate].
  apply elem_of_app. right. by left.
Qed.

(** C5, as the code has it.  For N >= 4 [queens] constructs one
    session.  It is released once when the loop ends on a falsy answer
    of [solve], so on every run that returns a count; when [solve],
    [get_model] or [add_clause] raises, or [get_model] gives no list,
    the exception leaves [queens] and [delete] is not called. *)
Theorem session_release pysat fuel N solver_name tr r :
  3 < N → queens pysat fuel N solver_name = Some (tr, r) →
  count_events is_construct tr = 1%nat ∧
  count_events is_delete tr = (if ends_in_fault tr then 0 else 1)%nat ∧
  (ends_in_fault tr = true → ∃ e, r = Raised e) ∧
  (∀ c, r = Return c → count_events is_delete tr = 1%nat).
Proof.
  intros HN Hq. apply queens_has_shape in Hq; [| done].
  destruct Hq as [cls tr0 e Hl|cls tr0 tr r Hl Hrun].
  - destruct (load_release _ _ Hl) as (Hc & Hd & Hne & Hf).
    rewrite ends_in_fault_cons, Hf by done.
    change (Construct cls :: tr0) with ([Construct cls] ++ tr0).
    rewrite !count_events_app, Hc, Hd. repeat split; [by exists e | done].
  - destruct (load_release _ _ Hl) as (Hc0 & Hd0 & _).
    destruct (run_release _ _ _ Hrun) as (Hne & Hc & Hd & Hr).
    change (Construct cls :: tr0 ++ tr) with ([Construct cls] ++ tr0 ++ tr).
    rewrite !ends_in_fault_app by (done || by destruct tr0, tr).
    rewrite !count_events_app, Hc0, Hd0, Hc, Hd.
    destruct (ends_in_fault tr) eqn:Ef.
    + destruct Hr as [e ->]. repeat split; [by exists e | done].
    + repeat split; done.
Qed.

Lemma session_release_witness :
  let tr := loaded Minisat22 4 ++ [Solve (inl (SolverError 1))] in
  3 < 4 ∧
  queens (λ _, Faulty.raising) 1 4 "MiniSat" =
    Some (tr, Raised (SolverError 1)) ∧
  count_events is_construct tr = 1%nat ∧
  count_events is_delete tr = (if ends_in_fault tr then 0 else 1)%nat ∧
  (ends_in_fault tr = true → ∃ e, Raised (SolverError 1) = Raised e) ∧
  (∀ c, Raised (SolverError 1) = Return c →
        count_events is_delete tr = 1%nat).
Proof.
  intros tr. split; [lia |]. split; [vm_compute; reflexivity |].
  apply (session_release (λ _, Faulty.raising) 1 4 "MiniSat"); [lia |].
  vm_compute. reflexivity.
Defined.

(** C5 as stated fails: when [solve] raises, the session that was
    constructed is never released. *)
Lemma session_leaks_on_fault :
  ¬ (∀ pysat fuel N solver_name tr r,
       queens pysat fuel N solver_name = Some (tr, r) →
       count_events is_delete tr = count_events is_construct tr).
Proof.
  intros H.
  assert (E : queens (λ _, Faulty.raising) 1 4 "glucose3" =
              Some (loaded Glucose3 4 ++ [Solve (inl (SolverError 1))],
                    Raised (SolverError 1))) by (vm_compute; reflexivity).
  apply H in E. vm_compute in E. discriminate.
Qed.

(** C6. The clause built from a model is its literal-wise negation,
    whatever the signs; in every run each model handed over is followed
    by exactly one added clause, that negation; and among the complete
    assignments of the same variables it is false under the model
    itself and under no other. *)
Theorem blocking_clause_exact pysat fuel N solver_name tr r n m m' :
  queens pysat fuel N solver_name = Some (tr, r) →
  complete n 1 m = true → complete n 1 m' = true →
  blocking_clause m = Z.opp <$> m ∧
  blocks_follow tr ∧
  (sat_clause m' (blocking_clause m) = false ↔ m' = m).
Proof.
  intros Hq Hm Hm'. split; [apply blocking_clause_opp |]. split.
  - destruct (decide (N ≤ 3)) as [HN|HN].
    { rewrite queens_on_small in Hq by done. by injection Hq as <- <-. }
    apply queens_has_shape in Hq; [| lia].
    destruct Hq as [cls tr0 e Hl|cls tr0 tr r Hl Hrun]; simpl.
    + rewrite <- (app_nil_r tr0). by apply (load_blocks _ _ _ Hl).
    + apply (load_blocks _ _ _ Hl). by eapply run_blocks.
  - by apply (blocking_excludes n 1).
Qed.

Lemma blocking_clause_exact_witness :
  ∃ tr r,
    queens ref_pysat 3 4 "cadical" = Some (tr, r) ∧
    complete 2 1 [1; -2] = true ∧ complete 2 1 [-1; -2] = true ∧
    blocking_clause [1; -2] = Z.opp <$> [1; -2] ∧
    blocks_follow tr ∧
    (sat_clause [-1; -2] (blocking_clause [1; -2]) = false ↔
     [-1; -2] = [1; -2]).
Proof.
  destruct (queens ref_pysat 3 4 "cadical") as [[tr r]|] eqn:E;
    [| vm_compute in E; discriminate].
  exists tr, r. split; [reflexivity |].
  split; [reflexivity |]. split; [reflexivity |].
  exact (blocking_clause_exact ref_pysat 3 4 "cadical" tr r 2
           [1; -2] [-1; -2] E eq_refl eq_refl).
Defined.

(** C7. Against sound backends, the models accepted in one call of
    [queens] are pairwise different. *)
Theorem accepted_models_distinct pysat
    (clauses : ∀ cls, session (pysat cls) → list (list Z))
    fuel N solver_name tr r :
  (∀ cls, sound (pysat cls) (clauses cls)) →
  queens pysat fuel N solver_name = Some (tr, r) →
  NoDup (accepted tr).
Proof.
  intros Hs. destruct (decide (N ≤ 3)) as [HN|HN].
  { rewrite queens_on_small by done. intros [= <- <-]. apply NoDup_nil_2. }
  unfold queens. rewrite bool_decide_eq_false_2 by done.
  destruct (lookup_class_is_Some solver_name) as [cls ->].
  destruct (load (pysat cls) (new_session (pysat cls)) (cnf N))
    as [tr0 [e|st]] eqn:El.
  - intros [= <- <-]. simpl. rewrite (load_accepted _ _ _ _ _ El).
    apply NoDup_nil_2.
  - destruct (enumerate (pysat cls) fuel st 0) as [[tr1 r1]|] eqn:E;
      simpl; [| done].
    intros [= <- <-]. simpl.
    rewrite accepted_app, (load_accepted _ _ _ _ _ El). simpl.
    destruct (enumerate_distinct _ _ (Hs cls) fuel st 0 [] tr1 r1) as [Hnd _];
      [| done | done].
    by intros m' ?%elem_of_nil.
Qed.

Lemma accepted_models_distinct_witness :
  ∃ tr r,
    (∀ cls, sound (ref_pysat cls) (ref_clauses cls)) ∧
    queens ref_pysat 3 4 "glucose3" = Some (tr, r) ∧
    length (accepted tr) = 2%nat ∧
    NoDup (accepted tr).
Proof.
  destruct (queens ref_pysat 3 4 "glucose3") as [[tr r]|] eqn:E;
    [| vm_compute in E; discriminate].
  exists tr, r. split; [apply ref_pysat_sound |]. split; [reflexivity |].
  split.
  - vm_compute in E. injection E as <- <-. reflexivity.
  - exact (accepted_models_distinct ref_pysat ref_clauses 3 4 "glucose3" tr r
             ref_pysat_sound E).
Defined.

(** C8. For N >= 1, [var] maps the cells of the board one-to-one onto
    the identifiers 1 .. N*N, and [print_solution] decodes with the same
    mapping: its own [var] is equal to the encoder's, and a cell of its
    board shows a queen exactly when the encoder's variable of that cell
    is in the model. *)
Theorem var_bijection N :
  1 ≤ N →
  (∀ i j, 0 ≤ i < N → 0 ≤ j < N → 1 ≤ var N i j ≤ N * N) ∧
  (∀ i j i' j', 0 ≤ i < N → 0 ≤ j < N → 0 ≤ i' < N → 0 ≤ j' < N →
     var N i j = var N i' j' → i = i' ∧ j = j') ∧
  (∀ v, 1 ≤ v ≤ N * N → ∃ i j, 0 ≤ i < N ∧ 0 ≤ j < N ∧ var N i j = v) ∧
  (∀ i j, Printer.var N i j = var N i j) ∧
  (∀ (model : list Z) i j, 0 ≤ i < N → 0 ≤ j < N →
     (Printer.board N model !! Z.to_nat i) ≫= (λ row, row !! Z.to_nat j) =
       Some (if bool_decide (var N i j ∈ model)
             then "Q"%char else "."%char)).
Proof.
  intros HN. split; [| split; [| split; [| split]]].
  - intros i j. apply var_range.
  - intros i j i' j' _ Hj _ Hj'. by apply var_inj.
  - intros v. by apply var_surj.
  - done.
  - intros model i j Hi Hj. unfold Printer.board, range.
    rewrite list_lookup_fmap, lookup_seqZ_lt by lia. simpl.
    rewrite list_lookup_fmap, lookup_seqZ_lt by lia. simpl.
    rewrite !Z.add_0_l, !Z2Nat.id by lia. done.
Qed.

Lemma var_bijection_witness :
  1 ≤ 4 ∧ var 4 3 3 = 16 ∧
  (∀ i j, 0 ≤ i < 4 → 0 ≤ j < 4 → 1 ≤ var 4 i j ≤ 4 * 4).
Proof.
  split; [lia |]. split; [reflexivity |].
  exact (proj1 (var_bijection 4 ltac:(lia))).
Defined.

(** C9. Any casing of "glucose3", "minisat" or "cadical" selects the
    class of that name; a name that is none of them in any casing
    selects Glucose3, raises nothing, and [queens] runs as it does for
    "glucose3". *)
Theorem backend_selection solver_name name cls other :
  (name, cls) ∈ [("glucose3"%string, Glucose3); ("minisat"%string, Minisat22);
                 ("cadical"%string, Cadical103)] →
  lower solver_name = name →
  lower other ∉ ["glucose3"; "minisat"; "cadical"]%string →
  lookup_class solver_name = Some cls ∧
  lookup_class other = Some Glucose3 ∧
  ∀ pysat fuel N,
    queens pysat fuel N other = queens pysat fuel N "glucose3".
Proof.
  intros Hin Hlow Hother.
  assert (Hknown : lookup_class solver_name = Some cls).
  { unfold lookup_class, effective_name.
    assert (Hmap : solver_map !! lower solver_name = Some cls).
    { rewrite Hlow, solver_map_lookup.
      repeat (apply elem_of_cons in Hin as [Hin|Hin];
              [by injection Hin as -> -> |]).
      by apply elem_of_nil in Hin. }
    by rewrite Hmap. }
  assert (Hfall : lookup_class other = Some Glucose3).
  { unfold lookup_class, effective_name.
    assert (Hmap : solver_map !! lower other = None).
    { rewrite solver_map_lookup.
      repeat (destruct (decide (lower other = _)) as [E|_];
              [destruct Hother; rewrite E; repeat (try (by left); right) |]).
      done. }
    by rewrite Hmap. }
  split; [done |]. split; [done |].
  intros pysat fuel N. unfold queens. rewrite Hfall. done.
Qed.

Lemma backend_selection_witness :
  ("minisat"%string, Minisat22) ∈
    [("glucose3"%string, Glucose3); ("minisat"%string, Minisat22);
     ("cadical"%string, Cadical103)] ∧
  lower "MiniSat" = "minisat"%string ∧
  (lower "Z3" ∉ ["glucose3"; "minisat"; "cadical"]%string) ∧
  lookup_class "MiniSat" = Some Minisat22 ∧
  lookup_class "Z3" = Some Glucose3.
Proof.
  assert (Hin : ("minisat"%string, Minisat22) ∈
            [("glucose3"%string, Glucose3); ("minisat"%string, Minisat22);
             ("cadical"%string, Cadical103)]).
  { apply elem_of_cons. right. by left. }
  assert (Hno : lower "Z3" ∉ ["glucose3"; "minisat"; "cadical"]%string).
  { intros H. split_elem H. }
  split; [exact Hin |]. split; [reflexivity |]. split; [exact Hno |].
  destruct (backend_selection "MiniSat" "minisat" Minisat22 "Z3" Hin eq_refl Hno)
    as (H1 & H2 & _).
  split; [exact H1 | exact H2].
Defined.

(** C10. For every name and every N >= 4 the lookup of the class
    succeeds: [queens] never meets a missing key, and what it does
    begins with the construction of a session of the class found. *)
Theorem class_lookup_total pysat fuel N solver_name :
  4 ≤ N →
  ∃ cls, lookup_class solver_name = Some cls ∧
    ∀ tr r, queens pysat fuel N solver_name = Some (tr, r) →
            head tr = Some (Construct cls).
Proof.
  intros HN. destruct (lookup_class_is_Some solver_name) as [cls Hcls].
  exists cls. split; [done |]. intros tr r. unfold queens.
  rewrite bool_decide_eq_false_2, Hcls by lia.
  destruct (load _ _ _) as [tr0 [e|st]].
  - by intros [= <- <-].
  - destruct (enumerate _ _ _ _) as [[tr1 r1]|]; simpl; [| done].
    by intros [= <- <-].
Qed.

Lemma class_lookup_total_witness :
  4 ≤ 4 ∧
  ∃ cls, lookup_class "no such solver" = Some cls ∧
    ∀ tr r, queens ref_pysat 0 4 "no such solver" = Some (tr, r) →
            head tr = Some (Construct cls).
Proof.
  split; [lia |].
  exact (class_lookup_total ref_pysat 0 4 "no such solver" ltac:(lia)).
Defined.

(** * Further properties of the program *)

Import Placement Report Cli Calls Counting Samples.

Lemma foldr_max_ge (l : list Z) x : x ∈ l → x ≤ foldr Z.max 0 l.
Proof.
  induction l as [|y l IH]; [by intros ?%elem_of_nil |].
  intros [->|Hx]%elem_of_cons; simpl; [lia |]. specialize (IH Hx). lia.
Qed.

Lemma spec_clause_literals N c l :
  spec_clause N c → l ∈ c → 1 ≤ Z.abs l ≤ N * N.
Proof.
  intros [i Hi|i j1 j2 Hi Hj Hn|j i1 i2 Hj Hi Hn
         |d i1 j1 i2 j2 Hd H1 H1' H2 H2' E1 E2 Hlt
         |d i1 j1 i2 j2 Hd H1 H1' H2 H2' E1 E2 Hlt] Hl.
  - apply list_elem_of_fmap in Hl as (j & -> & Hj).
    apply elem_of_seqZ in Hj.
    pose proof (var_range N i j ltac:(lia) ltac:(lia)). lia.
  - pose proof (var_range N i j1 ltac:(lia) ltac:(lia)).
    pose proof (var_range N i j2 ltac:(lia) ltac:(lia)).
    split_elem Hl; lia.
  - pose proof (var_range N i1 j ltac:(lia) ltac:(lia)).
    pose proof (var_range N i2 j ltac:(lia) ltac:(lia)).
    split_elem Hl; lia.
  - pose proof (var_range N i1 j1 ltac:(lia) ltac:(lia)).
    pose proof (var_range N i2 j2 ltac:(lia) ltac:(lia)).
    split_elem Hl; lia.
  - pose proof (var_range N i1 j1 ltac:(lia) ltac:(lia)).
    pose proof (var_range N i2 j2 ltac:(lia) ltac:(lia)).
    split_elem Hl; lia.
Qed.

Lemma nof_vars_cnf N : 1 ≤ N → nof_vars (cnf N) = N * N.
Proof.
  intros HN. apply Z.le_antisymm.
  - apply foldr_max_le; [nia |]. intros a Ha.
    apply list_elem_of_fmap in Ha as (l & -> & Hl).
    apply list_elem_of_In, in_concat in Hl as (c & Hc & Hl).
    apply list_elem_of_In in Hc, Hl. apply cnf_spec in Hc.
    pose proof (spec_clause_literals N c l Hc Hl). lia.
  - apply foldr_max_ge. apply list_elem_of_fmap. exists (N * N).
    split; [lia |]. apply list_elem_of_In, in_concat.
    exists (row_clause N (N - 1)). split; apply list_elem_of_In.
    + apply cnf_spec. apply row_at_least_one. lia.
    + unfold row_clause. apply list_elem_of_fmap. exists (N - 1).
      split; [unfold var; lia | apply elem_of_range; lia].
Qed.

(** ** What a model of the formula says about the board *)

Lemma complete_total n : ∀ v m l,
  complete n v m = true → v ≤ l < v + Z.of_nat n → l ∈ m ∨ - l ∈ m.
Proof.
  induction n as [|n IH]; intros v [|x m] l Hc Hl; simpl in Hc;
    try discriminate; [lia |].
  apply andb_true_iff in Hc as [Hx Hc].
  destruct (decide (l = v)) as [->|Hne].
  - apply orb_true_iff in Hx as [Hx|Hx]; apply Z.eqb_eq in Hx; subst x.
    + left. by left.
    + right. by left.
  - destruct (IH (v + 1) m l Hc ltac:(lia)) as [H|H]; [left | right];
      by right.
Qed.

Section Board.
Context (N : Z) (m : list Z).
Context (HN : 1 ≤ N) (Hm : complete (Z.to_nat (N * N)) 1 m = true).

Lemma no_queen_iff i j :
  0 ≤ i < N → 0 ≤ j < N → - var N i j ∈ m ↔ ¬ queen N m i j.
Proof.
  intros Hi Hj. pose proof (var_range N i j Hi Hj) as Hv. unfold queen. split.
  - intros Hneg Hpos.
    by destruct (complete_consistent _ 1 m (var N i j) ltac:(lia) Hm Hpos).
  - intros Hno.
    by destruct (complete_total _ 1 m (var N i j) Hm ltac:(lia)).
Qed.

Lemma sat_excl i1 j1 i2 j2 :
  0 ≤ i1 < N → 0 ≤ j1 < N → 0 ≤ i2 < N → 0 ≤ j2 < N →
  sat_clause m [- var N i1 j1; - var N i2 j2] = true ↔
  ¬ (queen N m i1 j1 ∧ queen N m i2 j2).
Proof.
  intros H1 H1' H2 H2'. rewrite sat_clause_spec. split.
  - intros (l & Hl & Hlm) [Hq1 Hq2].
    split_elem Hl; [by apply (no_queen_iff i1 j1) in Hlm
                   | by apply (no_queen_iff i2 j2) in Hlm].
  - intros Hno. destruct (decide (var N i1 j1 ∈ m)) as [Hq1|Hq1].
    + exists (- var N i2 j2). split; [right; by left |].
      apply no_queen_iff; [done.. |]. intros Hq2. by apply Hno.
    + exists (- var N i1 j1). split; [by left |]. by apply no_queen_iff.
Qed.

Lemma sat_row_clause i :
  sat_clause m (row_clause N i) = true ↔ ∃ j, 0 ≤ j < N ∧ queen N m i j.
Proof.
  rewrite sat_clause_spec. unfold row_clause, queen. split.
  - intros (l & Hl & Hlm). apply list_elem_of_fmap in Hl as (j & -> & Hj).
    apply elem_of_range in Hj. by exists j.
  - intros (j & Hj & Hq). exists (var N i j). split; [| done].
    apply list_elem_of_fmap. exists j. split; [done |].
    by apply elem_of_range.
Qed.

Lemma model_placement : sat m (cnf N) = true → placement N m.
Proof.
  rewrite sat_spec. intros Hsat. split.
  - intros i Hi. apply sat_row_clause, Hsat, cnf_spec.
    by apply row_at_least_one.
  - intros i1 j1 i2 j2 H1 H1' H2 H2' Hq1 Hq2 [Hne Hatt].
    assert (Hcl : ∀ a b a' b', 0 ≤ a < N → 0 ≤ b < N → 0 ≤ a' < N →
              0 ≤ b' < N → queen N m a b → queen N m a' b' →
              spec_clause N [- var N a b; - var N a' b'] → False).
    { intros a b a' b' Ha Hb Ha' Hb' Hq Hq' Hspec.
      apply cnf_spec, Hsat in Hspec. apply sat_excl in Hspec; [| done..].
      by apply Hspec. }
    destruct (Z.lt_trichotomy i1 i2) as [Hlt|[Heq|Hgt]].
    + apply (Hcl i1 j1 i2 j2); [done.. |].
      destruct Hatt as [?|[<-|[E|E]]]; [lia | | |].
      * apply column_at_most_one; lia.
      * apply (main_diagonal N (i1 - j1)); lia.
      * apply (anti_diagonal N (i1 + j1)); lia.
    + subst i2. destruct (Z.lt_trichotomy j1 j2) as [Hlt|[Heq|Hgt]].
      * apply (Hcl i1 j1 i1 j2); [done.. |]. apply row_at_most_one; lia.
      * lia.
      * apply (Hcl i1 j2 i1 j1); [done.. |]. apply row_at_most_one; lia.
    + apply (Hcl i2 j2 i1 j1); [done.. |].
      destruct Hatt as [?|[<-|[E|E]]]; [lia | | |].
      * apply column_at_most_one; lia.
      * apply (main_diagonal N (i2 - j2)); lia.
      * apply (anti_diagonal N (i2 + j2)); lia.
Qed.

Lemma placement_model : placement N m → sat m (cnf N) = true.
Proof.
  intros [Hrow Hfree]. apply sat_spec. intros c Hc. apply cnf_spec in Hc.
  destruct Hc as [i Hi|i j1 j2 Hi Hj Hn|j i1 i2 Hj Hi Hn
                 |d i1 j1 i2 j2 Hd H1 H1' H2 H2' E1 E2 Hlt
                 |d i1 j1 i2 j2 Hd H1 H1' H2 H2' E1 E2 Hlt].
  - apply sat_row_clause. auto.
  - apply sat_excl; [lia.. |]. intros [Hq1 Hq2].
    apply (Hfree i j1 i j2); [lia.. | done | done |]. unfold attacks. lia.
  - apply sat_excl; [lia.. |]. intros [Hq1 Hq2].
    apply (Hfree i1 j i2 j); [lia.. | done | done |]. unfold attacks. lia.
  - apply sat_excl; [lia.. |]. intros [Hq1 Hq2].
    apply (Hfree i1 j1 i2 j2); [lia.. | done | done |]. unfold attacks. lia.
  - apply sat_excl; [lia.. |]. intros [Hq1 Hq2].
    apply (Hfree i1 j1 i2 j2); [lia.. | done | done |]. unfold attacks. lia.
Qed.
End Board.

Lemma is_model_cnf N m :
  1 ≤ N →
  is_model (cnf N) m ↔
  complete (Z.to_nat (N * N)) 1 m = true ∧ placement N m.
Proof.
  intros HN. unfold is_model. rewrite nof_vars_cnf by done. split.
  - intros [Hc Hs]. split; [done |]. by apply model_placement.
  - intros [Hc Hp]. split; [done |]. by apply placement_model.
Qed.

(** ** Counting the calls of a run *)

Lemma run_counts count tr r :
  run_shape count tr r →
  (length (accepted tr) ≤ count_events is_solve tr)%nat ∧
  ∀ c, r = Return c →
    c = count + Z.of_nat (length (accepted tr)) ∧
    count_events is_solve tr = S (length (accepted tr)) ∧
    last tr = Some (Delete None).
Proof.
  induction 1 as [count e|count a Ha|count a e Ha|count e|count|count m e
                 |count m tr r Hrun [IHlt IH]].
  - split; [unfold count_events; simpl; lia | done].
  - split; [unfold count_events; simpl; lia |]. intros c [= <-]. simpl.
    split; [lia | done].
  - split; [unfold count_events; simpl; lia | done].
  - split; [unfold count_events; simpl; lia | done].
  - split; [unfold count_events; simpl; lia | done].
  - split; [unfold count_events; simpl; lia | done].
  - change (count_events is_solve
              (Solve (inr (Some true)) :: GetModel (inr (Some m)) ::
               AddClause (blocking_clause m) None :: tr))
      with (S (count_events is_solve tr)).
    simpl accepted. simpl length. split; [lia |].
    intros c Hr. destruct (IH c Hr) as (-> & -> & Hlast).
    split; [lia |]. split; [done |]. by rewrite !last_cons, Hlast.
Qed.

Lemma load_no_solve tr r : load_shape tr r → count_events is_solve tr = 0%nat.
Proof. induction 1; done. Qed.

(** ** The order of the calls *)

Lemma run_order count tr r :
  run_shape count tr r →
  (∀ a, tr !! 0%nat ≠ Some (GetModel a)) ∧
  (∀ k a, tr !! S k = Some (GetModel a) →
          tr !! k = Some (Solve (inr (Some true)))) ∧
  (∀ k d, tr !! k = Some (Delete d) → length tr = S k) ∧
  (∀ k ev e, tr !! k = Some ev → raised_by ev = Some e →
             length tr = S k ∧ r = Raised e).
Proof.
  induction 1 as [count e|count a Ha|count a e Ha|count e|count|count m e
                 |count m tr r Hrun (IH0 & IHg & IHd & IHe)].
  1-6: (split; [done |]; split; [| split];
        [intros [|[|[|k]]] ? H; simpl in H; simplify_eq; done
        |intros [|[|[|k]]] ? H; simpl in H; simplify_eq; done
        |intros [|[|[|k]]] ? ? H H'; simpl in H; simplify_eq;
           simpl in H'; simplify_eq; done]).
  split; [done |]. split; [| split].
  - intros [|[|[|k]]] a; simpl; try done.
    + intros H. by destruct (IH0 a).
    + apply IHg.
  - intros [|[|[|k]]] d; simpl; try done. intros H.
    do 3 f_equal. by apply (IHd k d).
  - intros [|[|[|k]]] ev e H H'; simpl in H; simplify_eq;
      try (simpl in H'; discriminate).
    destruct (IHe k ev e H H') as [Hlen ->]. simpl. split; [lia | done].
Qed.

Lemma load_order tr r :
  load_shape tr r →
  ∀ k ev, tr !! k = Some ev →
    (∃ c, ev = AddClause c None) ∨
    (∃ c e, ev = AddClause c (Some e) ∧ r = Some e ∧ length tr = S k).
Proof.
  induction 1 as [|c e|c tr r Hl IH]; intros k ev Hk.
  - done.
  - destruct k as [|k]; simpl in Hk; simplify_eq. right. by exists c, e.
  - destruct k as [|k]; simpl in Hk.
    + simplify_eq. left. by exists c.
    + destruct (IH k ev Hk) as [H|(c' & e & -> & -> & Hlen)]; [by left |].
      right. exists c', e. simpl. by rewrite Hlen.
Qed.

Lemma queens_lookup_event cls (tr0 tr1 : list event) k ev :
  (Construct cls :: tr0 ++ tr1) !! k = Some ev →
  (k = 0%nat ∧ ev = Construct cls) ∨
  (∃ k0, k = S k0 ∧ tr0 !! k0 = Some ev) ∨
  (∃ k1, k = S (length tr0 + k1) ∧ tr1 !! k1 = Some ev).
Proof.
  destruct k as [|k]; simpl.
  - intros [= <-]. by left.
  - intros H. right. apply lookup_app_Some in H as [H|[Hle H]].
    + left. by exists k.
    + right. exists (k - length tr0)%nat. split; [f_equal; lia | done].
Qed.

(** X6. Whatever the backend, a count that [queens] returns is the
    number of models it took from the solver; for N > 3 it then asked
    [solve] once more than that, and its last call released the
    session. *)
Theorem count_is_accepted pysat fuel N solver_name tr c :
  queens pysat fuel N solver_name = Some (tr, Return c) →
  c = Z.of_nat (length (accepted tr)) ∧
  (3 < N → count_events is_solve tr = S (length (accepted tr)) ∧
           last tr = Some (Delete None)).
Proof.
  destruct (decide (N ≤ 3)) as [HN|HN].
  { rewrite queens_on_small by done. intros [= <- <-]. split; [done | lia]. }
  intros Hq. apply queens_has_shape in Hq; [| lia].
  inversion Hq as [|cls tr0 tr1 r Hl Hrun]; subst.
  destruct (run_counts _ _ _ Hrun) as [_ Hc].
  destruct (Hc c eq_refl) as (-> & Hsolve & Hlast).
  simpl. rewrite accepted_app, (load_blocks_accepted _ _ Hl). simpl.
  split; [done |]. intros _.
  change (Construct cls :: tr0 ++ tr1) with ([Construct cls] ++ tr0 ++ tr1).
  rewrite !count_events_app, (load_no_solve _ _ Hl), Hsolve.
  by rewrite !last_app, Hlast.
Qed.

(** X7. In every run [get_model] is called only right after a [solve]
    that answered [True]; [delete], when called, is the last call; and
    a call that raises is the last call, its exception being what
    [queens] raises. *)
Theorem call_order pysat fuel N solver_name tr r :
  queens pysat fuel N solver_name = Some (tr, r) →
  (∀ k a, tr !! k = Some (GetModel a) →
     ∃ k', k = S k' ∧ tr !! k' = Some (Solve (inr (Some true)))) ∧
  (∀ k d, tr !! k = Some (Delete d) → length tr = S k) ∧
  (∀ k ev e, tr !! k = Some ev → raised_by ev = Some e →
     length tr = S k ∧ r = Raised e).
Proof.
  destruct (decide (N ≤ 3)) as [HN|HN].
  { rewrite queens_on_small by done. intros [= <- <-].
    split; [| split]; by intros [|k]. }
  intros Hq. apply queens_has_shape in Hq; [| lia].
  destruct Hq as [cls tr0 e0 Hl|cls tr0 tr1 r Hl Hrun].
  - pose proof (load_order _ _ Hl) as Hload.
    split; [| split].
    + intros [|k] a Hk; simpl in Hk; [done |].
      by destruct (Hload k _ Hk) as [[c ?]|(c & e & ? & _)].
    + intros [|k] d Hk; simpl in Hk; [done |].
      by destruct (Hload k _ Hk) as [[c ?]|(c & e & ? & _)].
    + intros [|k] ev e Hk Hev; simpl in Hk; [by simplify_eq |].
      destruct (Hload k _ Hk) as [[c ->]|(c & e' & -> & [= ->] & Hlen)];
        [done |].
      simpl in Hev. simplify_eq. simpl. by rewrite Hlen.
  - pose proof (load_order _ _ Hl) as Hload.
    destruct (run_order _ _ _ Hrun) as (H0 & Hg & Hd & He).
    assert (Hlen : ∀ k1, length tr1 = S k1 →
              length (Construct cls :: tr0 ++ tr1) = S (S (length tr0 + k1))).
    { intros k1 E. simpl. rewrite length_app, E. lia. }
    split; [| split].
    + intros k a Hk.
      apply queens_lookup_event in Hk
        as [[_ ?]|[(k0 & -> & Hk)|(k1 & -> & Hk)]]; [done | |].
      * by destruct (Hload k0 _ Hk) as [[c ?]|(c & e & ? & _)].
      * destruct k1 as [|k1]; [by destruct (H0 a) |].
        exists (S (length tr0 + k1)). split; [f_equal; lia |].
        simpl. rewrite lookup_app_r by lia.
        replace (length tr0 + k1 - length tr0)%nat with k1 by lia.
        by apply (Hg k1 a).
    + intros k d Hk.
      apply queens_lookup_event in Hk
        as [[_ ?]|[(k0 & -> & Hk)|(k1 & -> & Hk)]]; [done | |].
      * by destruct (Hload k0 _ Hk) as [[c ?]|(c & e & ? & _)].
      * by apply Hlen, (Hd k1 d).
    + intros k ev e Hk Hev.
      apply queens_lookup_event in Hk
        as [[_ ->]|[(k0 & -> & Hk)|(k1 & -> & Hk)]]; [done | |].
      * destruct (Hload k0 _ Hk) as [[c ->]|(c & e' & _ & [=] & _)]. done.
      * destruct (He k1 ev e Hk Hev) as [E ->]. split; [by apply Hlen | done].
Qed.

(** ** What the loop accepts from a sound backend *)

Section Accepts.
Context (B : backend) (clauses : session B → list (list Z)).
Context (Hs : sound B clauses) (cls : list (list Z)).

Lemma enumerate_accepts_models fuel :
  ∀ st count (found : list (list Z)) tr r,
  clauses st = cls ++ (blocking_clause <$> found) →
  (∀ m, m ∈ found → is_model cls m) →
  enumerate B fuel st count = Some (tr, r) →
  ∀ m, m ∈ accepted tr → is_model cls m.
Proof.
  induction fuel as [|fuel IH]; intros st count found tr r Hst Hf; simpl;
    [done |].
  destruct (solve B st) as [e|[st1 a]] eqn:Es.
  { intros [= <- <-] m Hm. by apply elem_of_nil in Hm. }
  destruct (truthy a) eqn:Et.
  - destruct (get_model B st1) as [e|[st2 [m|]]] eqn:Eg.
    + intros [= <- <-] m Hm. by apply elem_of_nil in Hm.
    + destruct (sound_model _ _ Hs _ _ _ _ _ Es Et Eg) as [Hst2 Hm].
      rewrite Hst in Hm. apply models_blocked in Hm as [Hm Hfresh]; [| done].
      destruct (add_clause B st2 (blocking_clause m)) as [e|st3] eqn:Ea.
      * intros [= <- <-] m' Hm'. simpl in Hm'.
        by apply list_elem_of_singleton in Hm' as ->.
      * destruct (enumerate B fuel st3 (count + 1)) as [[tr' r']|] eqn:E;
          simpl; [| done].
        intros [= <- <-] m' Hm'. simpl in Hm'.
        apply elem_of_cons in Hm' as [->|Hm']; [done |].
        apply (IH st3 (count + 1) (found ++ [m]) tr' r'); [| | done | done].
        -- rewrite (sound_add _ _ Hs _ _ _ Ea), Hst2, Hst, fmap_app.
           by rewrite <- app_assoc.
        -- intros x [Hx| ->%list_elem_of_singleton]%elem_of_app; auto.
    + intros [= <- <-] m Hm. by apply elem_of_nil in Hm.
  - destruct (delete B st1); intros [= <- <-] m Hm;
      by apply elem_of_nil in Hm.
Qed.
End Accepts.

Lemma queens_accepts_models pysat
    (clauses : ∀ cls, session (pysat cls) → list (list Z))
    fuel N solver_name tr r m :
  (∀ cls, sound (pysat cls) (clauses cls)) →
  queens pysat fuel N solver_name = Some (tr, r) →
  m ∈ accepted tr → 3 < N ∧ is_model (cnf N) m.
Proof.
  intros Hs. destruct (decide (N ≤ 3)) as [HN|HN].
  { rewrite queens_on_small by done. intros [= <- <-] Hm.
    by apply elem_of_nil in Hm. }
  unfold queens. rewrite bool_decide_eq_false_2 by done.
  destruct (lookup_class_is_Some solver_name) as [cls ->].
  destruct (load (pysat cls) (new_session (pysat cls)) (cnf N))
    as [tr0 [e|st]] eqn:El.
  - intros [= <- <-]. simpl. rewrite (load_accepted _ _ _ _ _ El).
    by intros ?%elem_of_nil.
  - destruct (enumerate (pysat cls) fuel st 0) as [[tr1 r1]|] eqn:E;
      simpl; [| done].
    intros [= <- <-]. simpl.
    rewrite accepted_app, (load_accepted _ _ _ _ _ El). simpl. intros Hm.
    split; [lia |].
    apply (enumerate_accepts_models _ _ (Hs cls) (cnf N) fuel st 0 [] tr1 r1);
      [| | done | done].
    + rewrite (load_clauses _ _ (Hs cls) _ _ _ _ El), (sound_new _ _ (Hs cls)).
      simpl. by rewrite app_nil_r.
    + by intros x ?%elem_of_nil.
Qed.

(** X4. Every model [queens] takes from a sound backend assigns the
    N*N variables and puts a queen in every row with no two queens on
    a common row, column, diagonal or anti-diagonal. *)
Theorem accepted_models_are_placements pysat
    (clauses : ∀ cls, session (pysat cls) → list (list Z))
    fuel N solver_name tr r m :
  (∀ cls, sound (pysat cls) (clauses cls)) →
  queens pysat fuel N solver_name = Some (tr, r) →
  m ∈ accepted tr →
  complete (Z.to_nat (N * N)) 1 m = true ∧ placement N m.
Proof.
  intros Hs Hq Hm.
  destruct (queens_accepts_models pysat clauses fuel N solver_name tr r m
              Hs Hq Hm) as [HN Hmodel].
  apply is_model_cnf; [lia | done].
Qed.

(** X5. For every N > 3, with correct backends and enough fuel,
    [queens] returns; the models it took are pairwise different and
    are exactly the complete assignments that are placements, and the
    count returned is their number. *)
Theorem queens_counts_placements pysat N solver_name :
  (∀ cls, correct (pysat cls)) → 3 < N →
  ∃ fuel0, ∀ fuel, (fuel0 ≤ fuel)%nat →
    ∃ tr, queens pysat fuel N solver_name =
            Some (tr, Return (Z.of_nat (length (accepted tr)))) ∧
          NoDup (accepted tr) ∧
          ∀ m, m ∈ accepted tr ↔
               complete (Z.to_nat (N * N)) 1 m = true ∧ placement N m.
Proof.
  intros Hc HN. exists (S (length (all_models (cnf N)))). intros fuel Hfuel.
  destruct (queens_counts_models pysat N solver_name fuel Hc HN ltac:(lia))
    as (tr & Hq & Hperm).
  exists tr. split; [| split].
  - by rewrite (Permutation_length Hperm).
  - rewrite Hperm. apply all_models_NoDup.
  - intros m. rewrite Hperm, all_models_spec. apply is_model_cnf. lia.
Qed.

(** ** The printed board *)

Lemma fmap_const_on {A B} (f : A → B) (l : list A) c :
  (∀ x, x ∈ l → f x = c) → f <$> l = replicate (length l) c.
Proof.
  induction l as [|x l IH]; intros H; [done |]. simpl. f_equal.
  - apply H. by left.
  - apply IH. intros y Hy. apply H. by right.
Qed.

Lemma board_row N (m : list Z) i j :
  0 ≤ i < N → 0 ≤ j < N → queen N m i j →
  (∀ j', 0 ≤ j' < N → queen N m i j' → j' = j) →
  Printer.board N m !! Z.to_nat i =
    Some (replicate (Z.to_nat j) "."%char ++
          "Q"%char :: replicate (Z.to_nat (N - 1 - j)) "."%char).
Proof.
  intros Hi Hj Hq Huniq. unfold Printer.board, range.
  rewrite list_lookup_fmap, lookup_seqZ_lt by lia. simpl. f_equal.
  rewrite Z.add_0_l, Z2Nat.id by lia.
  replace N with (j + (1 + (N - 1 - j))) at 1 by lia.
  rewrite seqZ_app, (seqZ_cons (0 + j)) by lia.
  rewrite fmap_app, fmap_cons. f_equal; [| f_equal].
  - rewrite (fmap_const_on _ _ "."%char), length_seqZ; [done |].
    intros x Hx%elem_of_seqZ. rewrite bool_decide_eq_false_2; [done |].
    intros Hqx. specialize (Huniq x ltac:(lia) Hqx). lia.
  - rewrite bool_decide_eq_true_2; [done |]. by rewrite Z.add_0_l.
  - rewrite (fmap_const_on _ _ "."%char), length_seqZ; [f_equal; lia |].
    intros x Hx%elem_of_seqZ. rewrite bool_decide_eq_false_2; [done |].
    intros Hqx. specialize (Huniq x ltac:(lia) Hqx). lia.
Qed.

(** X10. For a placement on an N x N board [print_solution] prints
    N + 2 lines, and the line of row i is N cells joined by spaces, all
    dots except one Q, in a column where the model has a queen. *)
Theorem printed_placement N m i :
  1 ≤ N → placement N m → 0 ≤ i < N →
  length (print_solution N m) = S (S (Z.to_nat N)) ∧
  ∃ j, 0 ≤ j < N ∧ queen N m i j ∧
    print_solution N m !! S (Z.to_nat i) =
      Some (join_row (replicate (Z.to_nat j) "."%char ++
                      "Q"%char :: replicate (Z.to_nat (N - 1 - j)) "."%char)).
Proof.
  intros HN [Hrow Hfree] Hi.
  assert (Hlen : length (Printer.board N m) = Z.to_nat N).
  { unfold Printer.board, range. by rewrite length_fmap, length_seqZ. }
  split.
  { unfold print_solution. simpl. rewrite length_app, length_fmap, Hlen.
    simpl. lia. }
  destruct (Hrow i Hi) as (j & Hj & Hq). exists j. split; [done |].
  split; [done |].
  unfold print_solution. simpl.
  rewrite lookup_app_l by (rewrite length_fmap, Hlen; lia).
  rewrite list_lookup_fmap, (board_row N m i j); [done.. |].
  intros j' Hj' Hq'. destruct (decide (j' = j)) as [|Hne]; [done |].
  destruct (Hfree i j' i j Hi Hj' Hi Hj Hq' Hq). unfold attacks. lia.
Qed.

(** ** The command line *)

Lemma lower_ascii_idem c : lower_ascii (lower_ascii c) = lower_ascii c.
Proof. by destruct c as [[] [] [] [] [] [] [] []]. Qed.

Lemma lower_idem s : lower (lower s) = lower s.
Proof. induction s as [|c s IH]; simpl; [done |]. by rewrite lower_ascii_idem, IH. Qed.

Lemma lookup_class_lower s : lookup_class (lower s) = lookup_class s.
Proof.
  unfold lookup_class, effective_name. rewrite lower_idem.
  destruct (solver_map !! lower s); by rewrite ?lower_idem.
Qed.

Lemma queens_by_class pysat fuel N s s' :
  lookup_class s = lookup_class s' →
  queens pysat fuel N s = queens pysat fuel N s'.
Proof.
  intros E. unfold queens. rewrite <- E.
  by destruct (lookup_class_is_Some s) as [cls ->].
Qed.

Lemma recognised_lookup name :
  name ∈ ["glucose3"; "minisat"; "cadical"]%string ↔
  is_Some (solver_map !! name).
Proof.
  rewrite solver_map_lookup. split.
  - intros H. split_elem H; by eexists.
  - repeat (destruct (decide (name = _)) as [->|_];
            [intros _; repeat (try (by left); right) |]).
    by intros [? ?].
Qed.

Lemma lower_recognised name :
  name ∈ ["glucose3"; "minisat"; "cadical"]%string → lower name = name.
Proof. intros H. by split_elem H. Qed.

Lemma known_results_lookup N :
  known_results !! N =
    if decide (N = 4) then Some 2
    else if decide (N = 5) then Some 10
    else if decide (N = 6) then Some 4
    else if decide (N = 7) then Some 40
    else if decide (N = 8) then Some 92
    else None.
Proof.
  unfold known_results. repeat case_decide; subst; simplify_map_eq; done.
Qed.

(** X11. The name [main] passes to [queens] is always one of
    "glucose3", "minisat", "cadical"; [queens] runs with it as it would
    with the raw third argument (or "glucose3" when there is none);
    and the warning is printed exactly when that argument, lowered, is
    none of the three. *)
Theorem cli_solver_choice pysat fuel N argv :
  (choose_solver argv).2 ∈ ["glucose3"; "minisat"; "cadical"]%string ∧
  queens pysat fuel N (choose_solver argv).2 =
    queens pysat fuel N (default "glucose3"%string (argv !! 2%nat)) ∧
  ((choose_solver argv).1 = [] ↔
   ∀ arg, argv !! 2%nat = Some arg →
          lower arg ∈ ["glucose3"; "minisat"; "cadical"]%string).
Proof.
  unfold choose_solver. destruct (argv !! 2%nat) as [arg|]; simpl.
  - case_bool_decide as Hrec; simpl.
    + split; [done |]. split.
      * apply queens_by_class, lookup_class_lower.
      * split; [by intros _ a [= <-] | done].
    + split; [by left |]. split.
      * apply queens_by_class. unfold lookup_class at 2, effective_name.
        destruct (solver_map !! lower arg) eqn:E; [| done].
        destruct Hrec. apply recognised_lookup. by rewrite E.
      * split; [done |]. intros H. by destruct Hrec; apply H.
  - split; [by left |]. split; [done |]. split; [done | done].
Qed.



Lemma known_counts N expected :
  known_results !! N = Some expected →
  3 < N ∧ 0 ≤ expected ≤ 92 ∧
  length (all_models (cnf N)) = Z.to_nat expected.
Proof.
  intros Hknown. rewrite known_results_lookup in Hknown.
  destruct (decide (N = 4)) as [->|_].
  { injection Hknown as <-. split; [lia |]. split; [lia |].
    exact (proj1 cnf_model_counts). }
  destruct (decide (N = 5)) as [->|_].
  { injection Hknown as <-. split; [lia |]. split; [lia |].
    exact (proj1 (proj2 cnf_model_counts)). }
  destruct (decide (N = 6)) as [->|_].
  { injection Hknown as <-. split; [lia |]. split; [lia |].
    exact (proj1 (proj2 (proj2 cnf_model_counts))). }
  destruct (decide (N = 7)) as [->|_].
  { injection Hknown as <-. split; [lia |]. split; [lia |].
    exact (proj1 (proj2 (proj2 (proj2 cnf_model_counts)))). }
  destruct (decide (N = 8)) as [->|_].
  { injection Hknown as <-. split; [lia |]. split; [lia |].
    exact (proj2 (proj2 (proj2 (proj2 cnf_model_counts)))). }
  discriminate.
Qed.

(** X13. With correct backends and fuel above 92, for every N that
    has an entry in [known_results], [main] ends normally and its last
    line is the one that confirms the known value. *)
Theorem main_confirms_known_results pysat int fuel argv arg N expected :
  (∀ cls, correct (pysat cls)) → (92 < fuel)%nat →
  argv !! 1%nat = Some arg → int arg = Some N →
  known_results !! N = Some expected →
  ∃ out, main pysat int fuel argv = Some out ∧
         ended out = Finished ∧
         last (printed out) =
           Some ("✓ Result matches known value: " +:+ pretty expected).
Proof.
  intros Hc Hfuel Harg HN Hknown.
  destruct (known_counts N expected Hknown) as (HN3 & Hexp & Hlen).
  unfold main. rewrite Harg, HN, bool_decide_eq_false_2 by lia.
  destruct (choose_solver argv) as [warning name].
  destruct (queens_counts_models pysat N name fuel Hc HN3) as (tr & Hq & _);
    [lia |].
  rewrite Hq, Hlen, Z2Nat.id by lia. eexists. split; [reflexivity |].
  split; [reflexivity |].
  cbn [printed]. unfold check_known. rewrite Hknown.
  rewrite bool_decide_eq_true_2 by reflexivity.
  rewrite !last_app. reflexivity.
Qed.


(** ** The clauses handed to the solver *)

Lemma load_adds B st cls tr r c x :
  load B st cls = (tr, r) → AddClause c x ∈ tr → c ∈ cls.
Proof.
  revert st tr r. induction cls as [|c' cls IH]; intros st tr r; simpl.
  - intros [= <- <-] H. by apply elem_of_nil in H.
  - destruct (add_clause B st c') as [e|st'].
    + intros [= <- <-] H. split_elem H. by left.
    + destruct (load B st' cls) as [tr' r'] eqn:El. intros [= <- <-] H.
      apply elem_of_cons in H as [H|H]; [simplify_eq; by left |].
      right. by eapply IH.
Qed.

Lemma run_adds count tr r c x :
  run_shape count tr r → AddClause c x ∈ tr →
  ∃ m, m ∈ accepted tr ∧ c = blocking_clause m.
Proof.
  induction 1 as [count e|count a Ha|count a e Ha|count e|count|count m e
                 |count m tr r Hrun IH]; intros H.
  1-5: by split_elem H.
  - split_elem H. exists m. split; [by left | done].
  - do 2 (apply elem_of_cons in H as [H|H]; [done |]).
    apply elem_of_cons in H as [H|H].
    + simplify_eq. exists m. split; [by left | done].
    + destruct (IH H) as (m' & Hm' & ->). exists m'. split; [by right | done].
Qed.

(** X8. Against sound backends every clause [queens] hands to the
    solver is a clause of [cnf N] or the negation of a model taken
    before, and its literals are non-zero with variables in 1 .. N*N. *)
Theorem clauses_given_are_well_formed pysat
    (clauses : ∀ cls, session (pysat cls) → list (list Z))
    fuel N solver_name tr r c x :
  (∀ cls, sound (pysat cls) (clauses cls)) →
  queens pysat fuel N solver_name = Some (tr, r) →
  AddClause c x ∈ tr →
  (c ∈ cnf N ∨ ∃ m, m ∈ accepted tr ∧ c = Z.opp <$> m) ∧
  ∀ l, l ∈ c → 1 ≤ Z.abs l ≤ N * N.
Proof.
  intros Hs Hq Hc.
  assert (Horigin : c ∈ cnf N ∨ ∃ m, m ∈ accepted tr ∧ c = Z.opp <$> m).
  { destruct (decide (N ≤ 3)) as [HN|HN].
    { rewrite queens_on_small in Hq by done. injection Hq as <- <-.
      by apply elem_of_nil in Hc. }
    revert Hq. unfold queens. rewrite bool_decide_eq_false_2 by done.
    destruct (lookup_class_is_Some solver_name) as [cls ->].
    destruct (load (pysat cls) (new_session (pysat cls)) (cnf N))
      as [tr0 [e|st]] eqn:El.
    - intros [= <- <-]. apply elem_of_cons in Hc as [Hc|Hc]; [done |].
      left. by eapply load_adds.
    - destruct (enumerate (pysat cls) fuel st 0) as [[tr1 r1]|] eqn:E;
        simpl; [| done].
      intros [= <- <-]. apply elem_of_cons in Hc as [Hc|Hc]; [done |].
      apply elem_of_app in Hc as [Hc|Hc]; [left; by eapply load_adds |].
      right. apply enumerate_shape in E.
      destruct (run_adds _ _ _ _ _ E Hc) as (m & Hm & ->).
      exists m. split; [| apply blocking_clause_opp].
      simpl. rewrite accepted_app. apply elem_of_app. by right. }
  split; [done |]. intros l Hl.
  destruct Horigin as [Hcnf|(m & Hm & ->)].
  - apply cnf_spec in Hcnf. by eapply spec_clause_literals.
  - destruct (queens_accepts_models pysat clauses fuel N solver_name tr r m
                Hs Hq Hm) as [HN [Hcomplete _]].
    rewrite nof_vars_cnf in Hcomplete by lia.
    apply list_elem_of_fmap in Hl as (y & -> & Hy).
    pose proof (complete_range _ 1 m y ltac:(lia) Hcomplete Hy). lia.
Qed.

(** X9. The guard [N <= 3] at its boundary: for N <= 0 the encoder
    would build no clause, for N = 2 and N = 3 a formula without
    model, so 0 is what the enumeration would count; for N = 1 the
    formula has one model, and [queens] returns 0 all the same. *)
Theorem guard_boundary :
  (∀ N, N ≤ 0 → cnf N = []) ∧
  all_models (cnf 1) = [[1]] ∧
  all_models (cnf 2) = [] ∧
  all_models (cnf 3) = [] ∧
  (∀ pysat fuel solver_name,
     queens pysat fuel 1 solver_name = Some ([], Return 0)).
Proof.
  split; [| split; [| split; [| split]]]; try (vm_compute; reflexivity).
  intros N HN. unfold cnf, rows, columns, diagonals, anti_diagonals, range,
      range_from.
    rewrite !seqZ_nil by lia. done.
Qed.

(** ** How many clauses *)

Lemma length_bind_seqZ {A} (f : Z → list A) (F : Z → Z) c m n :
  0 ≤ n →
  (∀ k, m ≤ k < m + n → c * Z.of_nat (length (f k)) = F (k + 1) - F k) →
  c * Z.of_nat (length (seqZ m n ≫= f)) = F (m + n) - F m.
Proof.
  intros Hn. rewrite <- (Z2Nat.id n Hn). generalize (Z.to_nat n) as n'.
  clear n Hn. intros n'. revert m.
  induction n' as [|n' IH]; intros m Hf.
  - simpl. rewrite Z.add_0_r. lia.
  - rewrite seqZ_cons by lia. rewrite bind_cons, length_app.
    replace (Z.pred (Z.of_nat (S n'))) with (Z.of_nat n') by lia.
    rewrite Nat2Z.inj_add, Z.mul_add_distr_l.
    rewrite (IH (Z.succ m)) by (intros k Hk; apply Hf; lia).
    rewrite (Hf m) by lia.
    replace (Z.succ m + Z.of_nat n') with (m + Z.of_nat (S n')) by lia.
    replace (Z.succ m) with (m + 1) by lia. lia.
Qed.

Lemma length_bind_singleton {A B} (g : A → B) (l : list A) :
  length (l ≫= λ x, [g x]) = length l.
Proof. induction l as [|x l IH]; [done |]. rewrite bind_cons. simpl. by rewrite IH. Qed.

Lemma length_pair_loop g n :
  0 ≤ n → 2 * Z.of_nat (length (pair_loop g n)) = n * (n - 1).
Proof.
  intros Hn. unfold pair_loop, range.
  rewrite (length_bind_seqZ _ (λ k, k * (2 * n - 1 - k)) 2 0 n Hn).
  - ring.
  - intros k Hk. unfold range_from.
    rewrite length_bind_singleton, length_seqZ. rewrite Z2Nat.id by lia. ring.
Qed.

Lemma length_pairwise vs :
  2 * Z.of_nat (length (pairwise vs)) =
    Z.of_nat (length vs) * (Z.of_nat (length vs) - 1).
Proof. rewrite pairwise_loop. apply length_pair_loop. lia. Qed.

Lemma length_rows N :
  0 ≤ N → 2 * Z.of_nat (length (rows N)) = N * (2 + N * (N - 1)).
Proof.
  intros HN. unfold rows, range.
  rewrite (length_bind_seqZ _ (λ k, k * (2 + N * (N - 1))) 2 0 N HN).
  - ring.
  - intros i Hi. simpl length. rewrite Nat2Z.inj_succ.
    rewrite row_pairs_loop.
    pose proof (length_pair_loop (λ j1 j2, [- var N i j1; - var N i j2]) N HN).
    lia.
Qed.

Lemma length_columns N :
  0 ≤ N → 2 * Z.of_nat (length (columns N)) = N * (N * (N - 1)).
Proof.
  intros HN. rewrite columns_loop. unfold range.
  rewrite (length_bind_seqZ _ (λ k, k * (N * (N - 1))) 2 0 N HN).
  - ring.
  - intros j Hj.
    pose proof (length_pair_loop (λ i1 i2, [- var N i1 j; - var N i2 j]) N HN).
    lia.
Qed.

Lemma length_select (P : Z → Prop) `{∀ i, Decision (P i)} f lo hi N :
  0 ≤ N → lo ≤ hi →
  (∀ i, 0 ≤ i < N → P i ↔ lo ≤ i < hi) →
  Z.of_nat (length (select P f (range N))) =
    Z.max lo (Z.min N hi) - Z.max lo (Z.min 0 hi).
Proof.
  intros HN Hlo HP. unfold select, range.
  pose proof (length_bind_seqZ
    (λ i, if bool_decide (P i) then [f i] else [])
    (λ k, Z.max lo (Z.min k hi)) 1 0 N HN) as Hsum.
  rewrite Z.mul_1_l, Z.add_0_l in Hsum. apply Hsum.
  intros k Hk. pose proof (HP k ltac:(lia)) as [HP1 HP2].
  case_bool_decide as HPk; simpl.
  - specialize (HP1 HPk). lia.
  - assert (¬ lo ≤ k < hi) by tauto. lia.
Qed.

Lemma length_diagonal_vars N d :
  - N < d < N →
  Z.of_nat (length (diagonal_vars N d)) = N - Z.abs d.
Proof.
  intros Hd. rewrite diagonal_vars_select.
  rewrite (length_select _ _ d (N + d)) by lia. lia.
Qed.

Lemma length_anti_diagonal_vars N d :
  0 ≤ d < 2 * N - 1 →
  Z.of_nat (length (anti_diagonal_vars N d)) = N - Z.abs (d - (N - 1)).
Proof.
  intros Hd. rewrite anti_diagonal_vars_select.
  rewrite (length_select _ _ (d - N + 1) (d + 1)) by lia. lia.
Qed.

Lemma pairs_step vs u :
  Z.of_nat (length vs) = u →
  6 * Z.of_nat (length (pairwise vs)) = falling3 (u + 1) - falling3 u.
Proof.
  intros Hu. pose proof (length_pairwise vs) as Hp. rewrite Hu in Hp.
  unfold falling3.
  replace (6 * Z.of_nat (length (pairwise vs)))
    with (3 * (2 * Z.of_nat (length (pairwise vs)))) by ring.
  rewrite Hp. ring.
Qed.

Lemma length_diagonals N :
  1 ≤ N → 6 * Z.of_nat (length (diagonals N)) = N * (N - 1) * (2 * N - 1).
Proof.
  intros HN. unfold diagonals, range_from.
  replace (N - - (N - 1)) with ((N - 1) + N) by lia.
  rewrite seqZ_app, bind_app, length_app, Nat2Z.inj_add by lia.
  rewrite Z.mul_add_distr_l.
  rewrite (length_bind_seqZ _ (λ d, falling3 (N + d)) 6 (- (N - 1)) (N - 1))
    by (lia || (intros k Hk; rewrite (pairs_step _ (N + k));
                [f_equal; f_equal; lia
                |rewrite length_diagonal_vars by lia; lia])).
  rewrite (length_bind_seqZ _ (λ d, - falling3 (N - d + 1)) 6
             (- (N - 1) + (N - 1)) N)
    by (lia || (intros k Hk; rewrite (pairs_step _ (N - k));
                [replace (N - (k + 1) + 1) with (N - k) by lia;
                 replace (N - k + 1) with (N - k + 1) by lia; lia
                |rewrite length_diagonal_vars by lia; lia])).
  replace (N + (- (N - 1) + (N - 1))) with N by lia.
  replace (N + - (N - 1)) with 1 by lia.
  replace (N - (- (N - 1) + (N - 1) + N) + 1) with 1 by lia.
  replace (N - (- (N - 1) + (N - 1)) + 1) with (N + 1) by lia.
  unfold falling3. ring.
Qed.

Lemma length_anti_diagonals N :
  1 ≤ N →
  6 * Z.of_nat (length (anti_diagonals N)) = N * (N - 1) * (2 * N - 1).
Proof.
  intros HN. unfold anti_diagonals, range.
  replace (2 * N - 1) with (N + (N - 1)) by lia.
  rewrite seqZ_app, bind_app, length_app, Nat2Z.inj_add by lia.
  rewrite Z.mul_add_distr_l.
  rewrite (length_bind_seqZ _ (λ d, falling3 (d + 1)) 6 0 N)
    by (lia || (intros k Hk; rewrite (pairs_step _ (k + 1));
                [f_equal; f_equal; lia
                |rewrite length_anti_diagonal_vars by lia; lia])).
  rewrite (length_bind_seqZ _ (λ d, - falling3 (2 * N - d)) 6 (0 + N) (N - 1))
    by (lia || (intros k Hk; rewrite (pairs_step _ (2 * N - 1 - k));
                [replace (2 * N - (k + 1)) with (2 * N - 1 - k) by lia;
                 replace (2 * N - 1 - k + 1) with (2 * N - k) by lia; lia
                |rewrite length_anti_diagonal_vars by lia; lia])).
  replace (2 * N - (0 + N + (N - 1))) with 1 by lia.
  replace (2 * N - (0 + N)) with N by lia.
  replace (0 + N + 1) with (N + 1) by lia.
  unfold falling3. ring.
Qed.

(** X2. For N >= 0 the formula has N (5 N^2 - 6 N + 4) / 3 clauses. *)
Theorem cnf_length N :
  0 ≤ N → 3 * Z.of_nat (length (cnf N)) = N * (5 * N * N - 6 * N + 4).
Proof.
  intros HN. destruct (decide (N = 0)) as [->|Hne]; [done |].
  unfold cnf. rewrite !length_app, !Nat2Z.inj_add.
  pose proof (length_rows N HN). pose proof (length_columns N HN).
  pose proof (length_diagonals N ltac:(lia)).
  pose proof (length_anti_diagonals N ltac:(lia)).
  nia.
Qed.

(** X1. For N >= 1 every literal of the formula is non-zero with its
    variable in 1 .. N*N, and the largest variable is N*N. *)
Theorem cnf_literals_in_range N :
  1 ≤ N →
  (∀ c l, c ∈ cnf N → l ∈ c → l ≠ 0 ∧ 1 ≤ Z.abs l ≤ N * N) ∧
  nof_vars (cnf N) = N * N.
Proof.
  intros HN. split; [| by apply nof_vars_cnf].
  intros c l Hc Hl. apply cnf_spec in Hc.
  pose proof (spec_clause_literals N c l Hc Hl). lia.
Qed.

Lemma cnf_literals_in_range_witness :
  1 ≤ 4 ∧ nof_vars (cnf 4) = 4 * 4.
Proof.
  split; [lia |]. exact (proj2 (cnf_literals_in_range 4 ltac:(lia))).
Defined.

(** X3. For N >= 1 a complete assignment of the N*N variables
    satisfies the formula exactly when it is a placement: a queen in
    every row, no two queens on a common row, column, diagonal or
    anti-diagonal. *)
Theorem models_are_placements N m :
  1 ≤ N → complete (Z.to_nat (N * N)) 1 m = true →
  sat m (cnf N) = true ↔ placement N m.
Proof.
  intros HN Hm. split; [by apply model_placement | by apply placement_model].
Qed.

Lemma models_are_placements_witness :
  1 ≤ 4 ∧ complete (Z.to_nat (4 * 4)) 1 solution4 = true ∧
  (sat solution4 (cnf 4) = true ↔ placement 4 solution4).
Proof.
  split; [lia |]. split; [reflexivity |].
  apply (models_are_placements 4 solution4); [lia | reflexivity].
Defined.

Lemma count_is_accepted_witness :
  ∃ tr c, queens ref_pysat 3 4 "glucose3" = Some (tr, Return c) ∧
          c = Z.of_nat (length (accepted tr)) ∧
          (3 < 4 → count_events is_solve tr = S (length (accepted tr)) ∧
                   last tr = Some (Delete None)).
Proof.
  destruct (queens ref_pysat 3 4 "glucose3") as [[tr [c|e]]|] eqn:E;
    [| vm_compute in E; discriminate..].
  exists tr, c. split; [reflexivity |].
  exact (count_is_accepted ref_pysat 3 4 "glucose3" tr c E).
Defined.

Lemma call_order_witness :
  ∃ tr r, queens (λ _, Faulty.raising) 1 4 "cadical" = Some (tr, r) ∧
    (∀ k a, tr !! k = Some (GetModel a) →
       ∃ k', k = S k' ∧ tr !! k' = Some (Solve (inr (Some true)))) ∧
    (∀ k d, tr !! k = Some (Delete d) → length tr = S k) ∧
    (∀ k ev e, tr !! k = Some ev → raised_by ev = Some e →
       length tr = S k ∧ r = Raised e).
Proof.
  destruct (queens (λ _, Faulty.raising) 1 4 "cadical") as [[tr r]|] eqn:E;
    [| vm_compute in E; discriminate].
  exists tr, r. split; [reflexivity |].
  exact (call_order (λ _, Faulty.raising) 1 4 "cadical" tr r E).
Defined.

Lemma accepted_models_are_placements_witness :
  ∃ tr r,
    (∀ cls, sound (ref_pysat cls) (ref_clauses cls)) ∧
    queens ref_pysat 3 4 "glucose3" = Some (tr, r) ∧
    solution4 ∈ accepted tr ∧
    complete (Z.to_nat (4 * 4)) 1 solution4 = true ∧ placement 4 solution4.
Proof.
  destruct (queens ref_pysat 3 4 "glucose3") as [[tr r]|] eqn:E;
    [| vm_compute in E; discriminate].
  assert (Hin : solution4 ∈ accepted tr).
  { pose proof E as E'. vm_compute in E'. injection E' as <- <-.
    simpl. by left. }
  exists tr, r. split; [apply ref_pysat_sound |]. split; [reflexivity |].
  split; [exact Hin |].
  exact (accepted_models_are_placements ref_pysat ref_clauses 3 4 "glucose3"
           tr r solution4 ref_pysat_sound E Hin).
Defined.

Lemma queens_counts_placements_witness :
  (∀ cls, correct (ref_pysat cls)) ∧ 3 < 4 ∧
  ∃ fuel0, ∀ fuel, (fuel0 ≤ fuel)%nat →
    ∃ tr, queens ref_pysat fuel 4 "minisat" =
            Some (tr, Return (Z.of_nat (length (accepted tr)))) ∧
          NoDup (accepted tr) ∧
          ∀ m, m ∈ accepted tr ↔
               complete (Z.to_nat (4 * 4)) 1 m = true ∧ placement 4 m.
Proof.
  split; [apply ref_pysat_correct |]. split; [lia |].
  exact (queens_counts_placements ref_pysat 4 "minisat" ref_pysat_correct
           ltac:(lia)).
Defined.

Lemma clauses_given_are_well_formed_witness :
  ∃ tr r,
    (∀ cls, sound (ref_pysat cls) (ref_clauses cls)) ∧
    queens ref_pysat 3 4 "glucose3" = Some (tr, r) ∧
    AddClause [1; 2; 3; 4] None ∈ tr ∧
    ([1; 2; 3; 4] ∈ cnf 4 ∨
     ∃ m, m ∈ accepted tr ∧ [1; 2; 3; 4] = Z.opp <$> m) ∧
    ∀ l, l ∈ [1; 2; 3; 4] → 1 ≤ Z.abs l ≤ 4 * 4.
Proof.
  destruct (queens ref_pysat 3 4 "glucose3") as [[tr r]|] eqn:E;
    [| vm_compute in E; discriminate].
  assert (Hin : AddClause [1; 2; 3; 4] None ∈ tr).
  { pose proof E as E'. vm_compute in E'. injection E' as <- <-.
    right. by left. }
  exists tr, r. split; [apply ref_pysat_sound |]. split; [reflexivity |].
  split; [exact Hin |].
  exact (clauses_given_are_well_formed ref_pysat ref_clauses 3 4 "glucose3"
           tr r [1; 2; 3; 4] None ref_pysat_sound E Hin).
Defined.

Lemma printed_placement_witness :
  1 ≤ 4 ∧ placement 4 solution4 ∧ 0 ≤ 0 < 4 ∧
  length (print_solution 4 solution4) = 6%nat ∧
  print_solution 4 solution4 !! 1%nat = Some ". Q . ."%string.
Proof.
  assert (Hp : placement 4 solution4).
  { apply model_placement; [lia | reflexivity | vm_compute; reflexivity]. }
  split; [lia |]. split; [exact Hp |]. split; [lia |].
  destruct (printed_placement 4 solution4 0 ltac:(lia) Hp ltac:(lia))
    as [Hlen _].
  split; [exact Hlen | reflexivity].
Defined.


Lemma main_confirms_known_results_witness :
  (∀ cls, correct (ref_pysat cls)) ∧ (92 < 93)%nat ∧
  ["queens.py"; "4"]%string !! 1%nat = Some "4"%string ∧
  known_results !! 4 = Some 2 ∧
  ∃ out, main ref_pysat (λ _, Some 4) 93 ["queens.py"; "4"]%string = Some out ∧
         ended out = Finished ∧
         last (printed out) =
           Some ("✓ Result matches known value: " +:+ pretty 2).
Proof.
  split; [apply ref_pysat_correct |]. split; [lia |].
  split; [reflexivity |]. split; [reflexivity |].
  exact (main_confirms_known_results ref_pysat (λ _, Some 4) 93
           ["queens.py"; "4"]%string "4" 4 2 ref_pysat_correct ltac:(lia)
           eq_refl eq_refl eq_refl).
Defined.

Lemma cnf_length_witness :
  0 ≤ 8 ∧ 3 * Z.of_nat (length (cnf 8)) = 8 * (5 * 8 * 8 - 6 * 8 + 4).
Proof. split; [lia |]. exact (cnf_length 8 ltac:(lia)). Defined.
